(** * trmon: reconstruction of HTTP transactions from captured TCP traffic

    A shallow embedding of [main.go]: the connection key, the registry of
    bidirectional streams kept by [httpStreamFactory], the two reader
    goroutines [runOut] and [runIn] with the request channel between them,
    and the packet accounting of [LogPacketSize]. *)

From Stdlib Require Import ZArith List Bool Lia.
From Stdlib Require Import Strings.String Strings.Byte.
From stdpp Require Import base option list gmap strings.

Import ListNotations.
Local Open Scope string_scope.
Local Open Scope Z_scope.
Local Open Scope list_scope.

(** ** Machine integers *)

Definition uint64 := Z.
Definition int64 := Z.
Definition uint32 := Z.
Definition uint16 := Z.
Definition uint8 := Z.

Definition wrap16 (z : Z) : uint16 := z mod 2 ^ 16.
Definition wrap64 (z : Z) : uint64 := z mod 2 ^ 64.

(** Conversion of an integer to the signed 64-bit value with the same
    low 64 bits: the result of Go's int64 arithmetic. *)
Definition wrapS64 (z : Z) : int64 := (z + 2 ^ 63) mod 2 ^ 64 - 2 ^ 63.

(** [reqID++] on an [int64]. *)
Definition incr64 (x : int64) : int64 := wrapS64 (x + 1).

(** ** gopacket flows *)

(** [gopacket.Flow] and its [FastHash] belong to the gopacket library the
    program imports.  A flow has an endpoint type and the raw bytes of its
    source and destination. *)
Module gopacket.

Record Flow := mkFlow {
  typ : Z;                (* EndpointType, an int64 *)
  src : list byte;
  dst : list byte
}.

Definition fnvBasis : uint64 := 14695981039346656037.
Definition fnvPrime : uint64 := 1099511628211.

(** h ^= uint64(s[i]); h *= fnvPrime, for each byte of s. *)
Definition fnvStep (h : uint64) (b : byte) : uint64 :=
  wrap64 (Z.lxor h (Z.of_N (Byte.to_N b)) * fnvPrime).

Definition fnvHash (s : list byte) : uint64 := fold_left fnvStep s fnvBasis.

(** Modelled from the spec: [Flow.FastHash] of gopacket is not under
    src/.  The spec has it as a hash of the undirected pair of the two ends
    of a flow: the FNV-1a hashes of the two ends are added, a commutative
    operation, and the endpoint type is mixed in:
    h = fnvHash(src) + fnvHash(dst); h ^= uint64(typ); h *= fnvPrime *)
Definition FastHash (a : Flow) : uint64 :=
  let h := wrap64 (fnvHash (src a) + fnvHash (dst a)) in
  let h := Z.lxor h (wrap64 (typ a)) in
  wrap64 (h * fnvPrime).

(** The flow of the opposite direction: source and destination swapped. *)
Definition Reverse (a : Flow) : Flow :=
  {| typ := typ a; src := dst a; dst := src a |}.

#[global] Instance byte_eq_dec : EqDecision byte := Byte.byte_eq_dec.

#[global] Instance Flow_eq_dec : EqDecision Flow.
Proof. solve_decision. Defined.

End gopacket.

Import gopacket.

(** The connection key of [New] and [LogPacketSize]:
    [netFlow.FastHash() ^ tcpFlow.FastHash()]. *)
Definition connKey (netFlow tcpFlow : Flow) : uint64 :=
  Z.lxor (FastHash netFlow) (FastHash tcpFlow).

(** ** Messages, streams and the storage layer *)

Definition Time := Z.
Definition error := string.

(** [*http.Request]: what the program looks at is only which request it is. *)
Record Request := mkRequest {
  Method : string;
  RequestURI : string
}.

(** [*http.Response].  [Request_] is the request the response was parsed
    against ([http.ReadResponse(buf, req)] stores it in the response).
    [Body] is the first error that reading the body reports, [None] when
    the body ends with [io.EOF]. *)
Record Response := mkResponse {
  StatusCode : Z;
  Body : option error;
  Request_ : Request
}.

#[global] Instance Request_eq_dec : EqDecision Request.
Proof. solve_decision. Defined.

(** The reassembled bytes of one direction, cut at the message boundaries
    the net/http parser finds: a complete request, a complete response
    (status and what its body reports), or bytes that parse as neither; the
    end of the list is the end of input the reassembler signals.  A request
    cut short by the end of input is a malformed segment: [ReadRequest]
    reports it with an error other than [io.EOF]. *)
Inductive Segment :=
| SegRequest (req : Request)
| SegResponse (status : Z) (body : option error)
| SegMalformed (e : error).

Definition ReaderStream := list Segment.

(** A Go result [(v, err)]: [err == nil], [err == io.EOF], or another error. *)
Inductive result (A : Type) :=
| Ok (a : A)
| EOF
| Err (e : error).
Arguments Ok {A} a.
Arguments EOF {A}.
Arguments Err {A} e.

Module http.

(** Modelled from the spec: [http.ReadRequest] of net/http is not under
    src/.  A read yields a complete request, the end of input when nothing
    is left, or an error for bytes that are no request. *)
Definition ReadRequest (buf : ReaderStream) : result Request * ReaderStream :=
  match buf with
  | [] => (EOF, [])
  | SegRequest req :: rest => (Ok req, rest)
  | SegResponse _ _ :: rest => (Err "malformed HTTP request", rest)
  | SegMalformed e :: rest => (Err e, rest)
  end.

(** Modelled from the spec: [http.ReadResponse] of net/http is not under
    src/.  The response is parsed against the request it answers. *)
Definition ReadResponse (buf : ReaderStream) (req : Request)
  : result Response * ReaderStream :=
  match buf with
  | [] => (EOF, [])
  | SegResponse status body :: rest =>
      (Ok {| StatusCode := status; Body := body; Request_ := req |}, rest)
  | SegRequest _ :: rest => (Err "malformed HTTP response", rest)
  | SegMalformed e :: rest => (Err e, rest)
  end.

End http.

Module bufio.

(** Modelled from the spec: [Reader.Peek] of bufio is not under src/.
    [buf.Peek(1)]: [true] when it reports [io.EOF], no byte being left. *)
Definition PeekEOF (buf : ReaderStream) : bool :=
  match buf with
  | [] => true
  | _ :: _ => false
  end.

End bufio.

Module tcpreader.

(** Modelled from the spec: [DiscardBytesToFirstError] of gopacket's
    tcpreader is not under src/.  It reads and drops everything up to the
    first error of the reader; the only error a reader stream reports is
    the end of its input. *)
Definition DiscardBytesToFirstError (buf : ReaderStream) : ReaderStream := [].

End tcpreader.

(** What the program does to the outside, in order: the calls into the
    storage layer, the log lines, and the operations on the body of a
    request and on the request channel. *)
Inductive Event :=
| OpenTCPConnection (key : uint64) (t : Time)
| CloseTCPConnection (key : uint64) (t : Time)
| IncomingTCPPacket (key : uint64) (payloadLength : uint32)
| OutgoingTCPPacket (key : uint64) (payloadLength : uint32)
| SentRequest (key : uint64) (reqID : int64) (t : Time) (req : Request)
| ReceivedResponse (key : uint64) (reqID : int64) (t : Time) (resp : Response)
| Println (msg : string) (err : error)
| BodyClose (req : Request)
| ChanSend (req : Request)
| ChanRecv (req : Request).

(** [if err != nil { log.Println(msg, err) }] *)
Definition logIfErr (msg : string) (err : option error) : list Event :=
  match err with
  | Some e => [Println msg e]
  | None => []
  end.

(** ** The request channel: [make(chan *http.Request, n)] *)

Record Chan := mkChan {
  buf : list Request;
  cap : nat
}.

Definition make_chan (n : nat) : Chan := {| buf := []; cap := n |}.

(** [ch <- x]; [None] when the sender has to wait. *)
Definition send (ch : Chan) (x : Request) : option Chan :=
  if (length (buf ch) <? cap ch)%nat
  then Some {| buf := buf ch ++ [x]; cap := cap ch |}
  else None.

(** [<-ch]; [None] when the receiver has to wait. *)
Definition recv (ch : Chan) : option (Request * Chan) :=
  match buf ch with
  | [] => None
  | x :: rest => Some (x, {| buf := rest; cap := cap ch |})
  end.

(** ** The streams and their registry *)

(** [TCPStream]; its [storage] pointer is the one storage layer, whose
    answers are given to each step from outside. *)
Record TCPStream := mkTCPStream {
  netFlow : Flow;
  tcpFlow : Flow;
  readStream : ReaderStream;
  bidikey : uint64;
  closed : bool;
  reqInProgress : option Request
}.

Record BidiStream := mkBidiStream {
  key : uint64;
  in_ : option TCPStream;
  out : option TCPStream;
  requests : Chan
}.

Record httpStreamFactory := mkFactory {
  bidiStreams : gmap Z BidiStream;
  factory_closed : bool
}.

Definition NewStreamFactory : httpStreamFactory :=
  {| bidiStreams := ∅; factory_closed := false |}.

Definition set_readStream (h : TCPStream) (rs : ReaderStream) : TCPStream :=
  {| netFlow := netFlow h; tcpFlow := tcpFlow h; readStream := rs;
     bidikey := bidikey h; closed := closed h;
     reqInProgress := reqInProgress h |}.

Definition set_closed (h : TCPStream) (b : bool) : TCPStream :=
  {| netFlow := netFlow h; tcpFlow := tcpFlow h; readStream := readStream h;
     bidikey := bidikey h; closed := b;
     reqInProgress := reqInProgress h |}.

Definition set_reqInProgress (h : TCPStream) (r : option Request) : TCPStream :=
  {| netFlow := netFlow h; tcpFlow := tcpFlow h; readStream := readStream h;
     bidikey := bidikey h; closed := closed h;
     reqInProgress := r |}.

Definition set_in (bds : BidiStream) (h : TCPStream) : BidiStream :=
  {| key := key bds; in_ := Some h; out := out bds; requests := requests bds |}.

Definition set_out (bds : BidiStream) (h : TCPStream) : BidiStream :=
  {| key := key bds; in_ := in_ bds; out := Some h; requests := requests bds |}.

Definition set_requests (bds : BidiStream) (ch : Chan) : BidiStream :=
  {| key := key bds; in_ := in_ bds; out := out bds; requests := ch |}.

(** The goroutine a call of [New] starts. *)
Inductive Spawn := GoRunOut | GoRunIn.

(** The stream object [New] builds; [rs] stands for the bytes the
    reassembler will deliver into its reader stream. *)
Definition newTCPStream (netFlow tcpFlow : Flow) (rs : ReaderStream)
  : TCPStream :=
  {| netFlow := netFlow; tcpFlow := tcpFlow; readStream := rs;
     bidikey := connKey netFlow tcpFlow; closed := false;
     reqInProgress := None |}.

(** [httpStreamFactory.New].  [now] is the reading of [time.Now()] and
    [err] the answer of [OpenTCPConnection], used when the call is made. *)
Definition New (h : httpStreamFactory) (netFlow tcpFlow : Flow)
    (rs : ReaderStream) (now : Time) (err : option error)
  : httpStreamFactory * list Event * Spawn :=
  let key := connKey netFlow tcpFlow in
  let hstream := newTCPStream netFlow tcpFlow rs in
  match bidiStreams h !! key with
  | None =>
      let bds := {| key := key; in_ := None; out := Some hstream;
                    requests := make_chan 100 |} in
      ({| bidiStreams := <[key := bds]> (bidiStreams h);
          factory_closed := factory_closed h |}, [], GoRunOut)
  | Some bds =>
      let bds := set_in bds hstream in
      ({| bidiStreams := <[key := bds]> (bidiStreams h);
          factory_closed := factory_closed h |},
       OpenTCPConnection key now :: logIfErr "Error storing connection" err,
       GoRunIn)
  end.

(** ** Packet accounting *)

Record IPv4 := mkIPv4 {
  Length : uint16;
  IHL : uint8
}.

Record TCP := mkTCP {
  DataOffset : uint8
}.

(** A decoded packet: the flows of its network and transport layers and
    its IPv4 and TCP layers, each [None] when the packet has no such layer
    (the nil the accessors of gopacket return). *)
Record Packet := mkPacket {
  NetworkLayer : option Flow;
  TransportLayer : option Flow;
  LayerIPv4 : option IPv4;
  LayerTCP : option TCP
}.

Inductive PanicValue :=
| NilDereference
| PanicError (e : error).

Inductive Outcome :=
| Returned
| Panicked (p : PanicValue).

(** [uint32(ipv4.Length - uint16(ipv4.IHL)*4 - uint16(tcp.DataOffset)*4)] *)
Definition payloadLength (ipv4 : IPv4) (tcp : TCP) : uint32 :=
  wrap16 (wrap16 (Length ipv4 - wrap16 (wrap16 (IHL ipv4) * 4))
          - wrap16 (wrap16 (DataOffset tcp) * 4)).

(** [if err != nil { panic(err) }] *)
Definition panicIfErr (err : option error) : Outcome :=
  match err with
  | Some e => Panicked (PanicError e)
  | None => Returned
  end.

(** [httpStreamFactory.LogPacketSize]; [err] is the answer of the storage
    call, used when one is made. *)
Definition LogPacketSize (h : httpStreamFactory) (packet : Packet)
    (err : option error) : list Event * Outcome :=
  match NetworkLayer packet with
  | None => ([], Panicked NilDereference)
  | Some netFlow' =>
  match TransportLayer packet with
  | None => ([], Panicked NilDereference)
  | Some tcpFlow' =>
      let key := connKey netFlow' tcpFlow' in
      match bidiStreams h !! key with
      | None => ([], Returned)
      | Some bds =>
          match in_ bds, out bds with
          | Some bin, Some _ =>
              match LayerIPv4 packet, LayerTCP packet with
              | Some ipv4, Some tcp =>
                  let n := payloadLength ipv4 tcp in
                  if decide (netFlow bin = netFlow')
                  then ([IncomingTCPPacket key n], panicIfErr err)
                  else ([OutgoingTCPPacket key n], panicIfErr err)
              | _, _ => ([], Panicked NilDereference)
              end
          | _, _ => ([], Returned)
          end
      end
  end
  end.

(** ** The reader goroutines of one connection

    One connection is a [BidiStream] of the registry together with the
    goroutine [runOut] that the first call of [New] for its key starts and
    the goroutines [runIn] that the later calls start: the one reading the
    stream that is [in] now, and those started for a stream a later call
    of [New] has replaced.  Each goroutine is a program point and its
    local counter [reqID]; the channel is the shared one of the
    [BidiStream]. *)

Inductive OutPC :=
| OutRead                    (* head of the loop: http.ReadRequest(buf) *)
| OutFailed (e : error)      (* bytes discarded, h.closed not yet tested *)
| OutSend (req : Request)    (* body closed: bds.requests <- req *)
| OutStore (req : Request)   (* pushed: h.storage.SentRequest, reqID++ *)
| OutReturned.

Inductive InPC :=
| InPeek                     (* head of the loop: buf.Peek(1) *)
| InRecv                     (* req = <-bds.requests *)
| InRead (req : Request)     (* http.ReadResponse(buf, req) *)
| InFailed (e : error)       (* bytes discarded, h.closed not yet tested *)
| InStore (resp : Response)  (* body drained: ReceivedResponse, reqID++ *)
| InReturned.

Record InLocals := mkInLocals {
  in_pc : InPC;
  in_reqID : int64
}.

(** A goroutine [runIn] whose stream is no longer the [in] of the
    [BidiStream]: it keeps the stream object it was started with. *)
Record InTask := mkInTask {
  task_stream : TCPStream;
  task_locals : InLocals
}.

Record Conn := mkConn {
  bds : BidiStream;
  out_pc : OutPC;
  out_reqID : int64;
  inG : option InLocals;
  replaced : list InTask
}.

(** The connection after the first [New] for its flows. *)
Definition startConn (netFlow tcpFlow : Flow) (rs : ReaderStream) : Conn :=
  {| bds := {| key := connKey netFlow tcpFlow; in_ := None;
               out := Some (newTCPStream netFlow tcpFlow rs);
               requests := make_chan 100 |};
     out_pc := OutRead; out_reqID := 0; inG := None; replaced := [] |}.

(** One step of [runOut]: from one program point to the next.  [None] when
    the goroutine cannot move: it has returned or waits at the channel. *)
Definition stepOut (c : Conn) (now : Time) (err : option error)
  : option (Conn * list Event) :=
  match out (bds c) with
  | None => None
  | Some h =>
      let goto b pc id :=
        {| bds := b; out_pc := pc; out_reqID := id; inG := inG c;
           replaced := replaced c |} in
      match out_pc c with
      | OutRead =>
          match http.ReadRequest (readStream h) with
          | (EOF, rest) =>
              Some (goto (set_out (bds c) (set_readStream h rest))
                         OutReturned (out_reqID c),
                    CloseTCPConnection (bidikey h) now
                    :: logIfErr "Error storing connection close timestamp" err)
          | (Err e, rest) =>
              let rest := tcpreader.DiscardBytesToFirstError rest in
              Some (goto (set_out (bds c) (set_readStream h rest))
                         (OutFailed e) (out_reqID c), [])
          | (Ok req, rest) =>
              Some (goto (set_out (bds c) (set_readStream h rest))
                         (OutSend req) (out_reqID c),
                    [BodyClose req])
          end
      | OutFailed e =>
          Some (goto (bds c) OutRead (out_reqID c),
                if closed h then [] else [Println "Error reading stream" e])
      | OutSend req =>
          match send (requests (bds c)) req with
          | None => None
          | Some ch =>
              Some (goto (set_requests (bds c) ch) (OutStore req) (out_reqID c),
                    [ChanSend req])
          end
      | OutStore req =>
          Some (goto (bds c) OutRead (incr64 (out_reqID c)),
                SentRequest (bidikey h) (out_reqID c) now req
                :: logIfErr "Error storing request" err)
      | OutReturned => None
      end
  end.

(** One step of [runIn]. *)
Definition stepIn (c : Conn) (now : Time) (err : option error)
  : option (Conn * list Event) :=
  match in_ (bds c), inG c with
  | Some h, Some g =>
      let goto b pc id :=
        {| bds := b; out_pc := out_pc c; out_reqID := out_reqID c;
           inG := Some {| in_pc := pc; in_reqID := id |};
           replaced := replaced c |} in
      match in_pc g with
      | InPeek =>
          if bufio.PeekEOF (readStream h)
          then Some (goto (bds c) InReturned (in_reqID g), [])
          else
            match reqInProgress h with
            | None => Some (goto (bds c) InRecv (in_reqID g), [])
            | Some req => Some (goto (bds c) (InRead req) (in_reqID g), [])
            end
      | InRecv =>
          match recv (requests (bds c)) with
          | None => None
          | Some (req, ch) =>
              Some (goto (set_in (set_requests (bds c) ch)
                                 (set_reqInProgress h (Some req)))
                         (InRead req) (in_reqID g),
                    [ChanRecv req])
          end
      | InRead req =>
          match http.ReadResponse (readStream h) req with
          | (EOF, rest) =>
              Some (goto (set_in (bds c) (set_readStream h rest))
                         InReturned (in_reqID g), [])
          | (Err e, rest) =>
              let rest := tcpreader.DiscardBytesToFirstError rest in
              Some (goto (set_in (bds c) (set_readStream h rest))
                         (InFailed e) (in_reqID g), [])
          | (Ok resp, rest) =>
              Some (goto (set_in (bds c) (set_readStream h rest))
                         (InStore resp) (in_reqID g),
                    logIfErr "Error discarding bytes " (Body resp))
          end
      | InFailed e =>
          Some (goto (bds c) InPeek (in_reqID g),
                if closed h then [] else [Println "Error reading stream" e])
      | InStore resp =>
          Some (goto (set_in (bds c) (set_reqInProgress h None))
                     InPeek (incr64 (in_reqID g)),
                ReceivedResponse (bidikey h) (in_reqID g) now resp
                :: logIfErr "Error storing response" err)
      | InReturned => None
      end
  | _, _ => None
  end.

(** A goroutine [runIn] started earlier for the key keeps running on the
    stream it was started with, whatever [in] of the [BidiStream] points
    to by now: its step is the step of [runIn] with that stream in the
    place of [in], and only the stream, the locals of the goroutine and
    the channel change. *)
Definition stepOld (c : Conn) (i : nat) (now : Time) (err : option error)
  : option (Conn * list Event) :=
  match replaced c !! i with
  | None => None
  | Some t =>
      match stepIn {| bds := set_in (bds c) (task_stream t);
                      out_pc := out_pc c; out_reqID := out_reqID c;
                      inG := Some (task_locals t);
                      replaced := replaced c |} now err with
      | None => None
      | Some (c1, evs) =>
          match in_ (bds c1), inG c1 with
          | Some h, Some g =>
              Some ({| bds := {| key := key (bds c); in_ := in_ (bds c);
                                 out := out (bds c);
                                 requests := requests (bds c1) |};
                       out_pc := out_pc c; out_reqID := out_reqID c;
                       inG := inG c;
                       replaced :=
                         <[i := {| task_stream := h; task_locals := g |}]>
                           (replaced c) |}, evs)
          | _, _ => None
          end
      end
  end.

(** A further [New] for the key of the connection: the [else] branch of
    [New] on this [BidiStream].  It sets [in] to the new stream, calls
    [OpenTCPConnection] and starts a goroutine [runIn] on the new stream
    with its counter at zero; a goroutine started for the stream that was
    [in] before goes on with that stream. *)
Definition attach (c : Conn) (netFlow tcpFlow : Flow) (rs : ReaderStream)
    (now : Time) (err : option error) : option (Conn * list Event) :=
  if decide (connKey netFlow tcpFlow = key (bds c)) then
    Some ({| bds := set_in (bds c) (newTCPStream netFlow tcpFlow rs);
             out_pc := out_pc c; out_reqID := out_reqID c;
             inG := Some {| in_pc := InPeek; in_reqID := 0 |};
             replaced :=
               match in_ (bds c), inG c with
               | Some h, Some g =>
                   replaced c ++ [{| task_stream := h; task_locals := g |}]
               | _, _ => replaced c
               end |},
          OpenTCPConnection (connKey netFlow tcpFlow) now
          :: logIfErr "Error storing connection" err)
  else None.

(** The end of [main]: [v.in.closed = true] and [v.out.closed = true]. *)
Definition markClosedIn (c : Conn) : option (Conn * list Event) :=
  match in_ (bds c) with
  | Some h =>
      Some ({| bds := set_in (bds c) (set_closed h true);
               out_pc := out_pc c; out_reqID := out_reqID c; inG := inG c;
               replaced := replaced c |},
            [])
  | None => None
  end.

Definition markClosedOut (c : Conn) : option (Conn * list Event) :=
  match out (bds c) with
  | Some h =>
      Some ({| bds := set_out (bds c) (set_closed h true);
               out_pc := out_pc c; out_reqID := out_reqID c; inG := inG c;
               replaced := replaced c |},
            [])
  | None => None
  end.

(** What the scheduler and the environment choose at each step: which
    goroutine moves, the clock it reads and the answer of the storage
    layer to the call it makes, if any. *)
Inductive Action :=
| RunOut (now : Time) (err : option error)
| RunIn (now : Time) (err : option error)
| RunOldIn (i : nat) (now : Time) (err : option error)
| NewIn (netFlow tcpFlow : Flow) (rs : ReaderStream)
        (now : Time) (err : option error)
| CloseIn
| CloseOut.

Definition step (c : Conn) (a : Action) : option (Conn * list Event) :=
  match a with
  | RunOut now err => stepOut c now err
  | RunIn now err => stepIn c now err
  | RunOldIn i now err => stepOld c i now err
  | NewIn netFlow tcpFlow rs now err => attach c netFlow tcpFlow rs now err
  | CloseIn => markClosedIn c
  | CloseOut => markClosedOut c
  end.

(** A schedule runs from a connection and collects the events in order;
    [None] when it asks a goroutine to move that cannot. *)
Fixpoint run (c : Conn) (sched : list Action) : option (Conn * list Event) :=
  match sched with
  | [] => Some (c, [])
  | a :: sched =>
      match step c a with
      | None => None
      | Some (c', evs) =>
          match run c' sched with
          | None => None
          | Some (c'', tr) => Some (c'', evs ++ tr)
          end
      end
  end.

(** ** Reading a trace *)

Definition pushedOf (e : Event) : option Request :=
  match e with ChanSend req => Some req | _ => None end.

Definition poppedOf (e : Event) : option Request :=
  match e with ChanRecv req => Some req | _ => None end.

Definition bodyClosedOf (e : Event) : option Request :=
  match e with BodyClose req => Some req | _ => None end.

Definition sentOf (e : Event) : option (int64 * Request) :=
  match e with SentRequest _ id _ req => Some (id, req) | _ => None end.

Definition receivedOf (e : Event) : option (int64 * Request) :=
  match e with
  | ReceivedResponse _ id _ resp => Some (id, Request_ resp)
  | _ => None
  end.

Definition closeOf (e : Event) : option Time :=
  match e with CloseTCPConnection _ t => Some t | _ => None end.

(** The requests pushed onto the channel, in the order of the pushes. *)
Definition pushed (tr : list Event) : list Request := omap pushedOf tr.
Definition popped (tr : list Event) : list Request := omap poppedOf tr.
Definition bodyClosed (tr : list Event) : list Request := omap bodyClosedOf tr.

(** The [SentRequest] calls: sequence index and request, in call order. *)
Definition sent (tr : list Event) : list (int64 * Request) := omap sentOf tr.

(** The [ReceivedResponse] calls: sequence index and matched request. *)
Definition received (tr : list Event) : list (int64 * Request) :=
  omap receivedOf tr.

Definition closes (tr : list Event) : list Time := omap closeOf tr.

(** The value of an [int64] counter that started at zero after [n]
    increments. *)
Definition seqOf (n : nat) : int64 := wrapS64 (Z.of_nat n).

(** [l] with each element next to the counter value of its position. *)
Definition numbered (l : list Request) : list (int64 * Request) :=
  imap (fun i r => (seqOf i, r)) l.

(** ** Predicates on connections and traces *)

Definition openOf (e : Event) : option (uint64 * Time) :=
  match e with OpenTCPConnection k t => Some (k, t) | _ => None end.

(** The [OpenTCPConnection] calls of a trace. *)
Definition opens (tr : list Event) : list (uint64 * Time) := omap openOf tr.

Definition isStorageCall (e : Event) : bool :=
  match e with
  | OpenTCPConnection _ _ | CloseTCPConnection _ _
  | IncomingTCPPacket _ _ | OutgoingTCPPacket _ _
  | SentRequest _ _ _ _ | ReceivedResponse _ _ _ _ => true
  | _ => false
  end.

(** The connection of the key is established: the registry holds a
    [BidiStream] with both directions attached. *)
Definition established (h : httpStreamFactory) (k : uint64)
    (bin bout : TCPStream) : Prop :=
  ∃ b, bidiStreams h !! k = Some b ∧ in_ b = Some bin ∧ out b = Some bout.

(** The key is unknown to the registry or only one direction is attached. *)
Definition notEstablished (h : httpStreamFactory) (k : uint64) : Prop :=
  bidiStreams h !! k = None
  ∨ ∃ b, bidiStreams h !! k = Some b ∧ (in_ b = None ∨ out b = None).

(** [runOut] has stored with [SentRequest] every request it pushed, each
    under the count of the pushes before it, except a request it has just
    pushed and is about to store; its counter is the number of stored
    requests. *)
Definition outInv (c : Conn) (tr : list Event) : Prop :=
  is_Some (out (bds c))
  ∧ out_reqID c = seqOf (length (sent tr))
  ∧ match out_pc c with
    | OutStore req => ∃ ps, pushed tr = ps ++ [req] ∧ sent tr = numbered ps
    | _ => sent tr = numbered (pushed tr)
    end.

(** [runIn] has stored with [ReceivedResponse] a response for every request
    it popped, each under the count of the pops before it, except the
    request in progress; its counter is the number of stored responses. *)
Definition inInv (c : Conn) (tr : list Event) : Prop :=
  match in_ (bds c), inG c with
  | None, None => popped tr = [] ∧ received tr = []
  | Some h, Some g =>
      in_reqID g = seqOf (length (received tr))
      ∧ match reqInProgress h with
        | None => received tr = numbered (popped tr)
        | Some r => ∃ qs, popped tr = qs ++ [r] ∧ received tr = numbered qs
        end
      ∧ match in_pc g with
        | InRecv => reqInProgress h = None
        | InRead req => reqInProgress h = Some req
        | InStore resp => reqInProgress h = Some (Request_ resp)
        | _ => True
        end
  | _, _ => False
  end.

(** The channel holds exactly the pushed requests not yet popped. *)
Definition chanInv (c : Conn) (tr : list Event) : Prop :=
  pushed tr = popped tr ++ buf (requests (bds c)).

Definition fifoInv (c : Conn) (tr : list Event) : Prop :=
  outInv c tr ∧ inInv c tr ∧ chanInv c tr.

(** The request [runOut] holds with its body closed and not yet pushed. *)
Definition toPush (c : Conn) : list Request :=
  match out_pc c with OutSend req => [req] | _ => [] end.

(** The bodies closed are those of the pushed requests and of the one
    about to be pushed; [CloseTCPConnection] has been called once when
    [runOut] has returned and not before; the channel has the capacity
    [New] gave it and holds no more than that. *)
Definition outLocalInv (c : Conn) (tr : list Event) : Prop :=
  bodyClosed tr = pushed tr ++ toPush c
  ∧ match out_pc c with
    | OutReturned => ∃ t, closes tr = [t]
    | _ => closes tr = []
    end
  ∧ cap (requests (bds c)) = 100%nat
  ∧ (length (buf (requests (bds c))) ≤ 100)%nat.




(** The action with the answer of the storage layer replaced. *)
Definition withErr (a : Action) (err : option error) : Action :=
  match a with
  | RunOut now _ => RunOut now err
  | RunIn now _ => RunIn now err
  | RunOldIn i now _ => RunOldIn i now err
  | NewIn nf tf rs now _ => NewIn nf tf rs now err
  | CloseIn => CloseIn
  | CloseOut => CloseOut
  end.

(** The log line that follows a failed storage call, if the events hold
    a storage call. *)
Definition logAfterCall (evs : list Event) (msg : string) (e : error)
  : list Event :=
  if existsb isStorageCall evs then [Println msg e] else [].

(** ** A connection to run the model on *)

(** 10.0.0.1:49153 -> 10.0.0.2:80 *)
Definition exNet : Flow :=
  {| typ := 2; src := [x0a; x00; x00; x01]; dst := [x0a; x00; x00; x02] |}.
Definition exTcp : Flow :=
  {| typ := 4; src := [xc0; x01]; dst := [x00; x50] |}.
Definition exKey : uint64 := Eval vm_compute in connKey exNet exTcp.

Definition GETa : Request := {| Method := "GET"; RequestURI := "/a" |}.
Definition GETb : Request := {| Method := "GET"; RequestURI := "/b" |}.

Definition exOutStream : TCPStream :=
  newTCPStream exNet exTcp [SegRequest GETa; SegRequest GETb].
Definition exInStream : TCPStream :=
  newTCPStream (Reverse exNet) (Reverse exTcp) [].

(** Two pipelined requests, then the two responses. *)
Definition exStart : Conn :=
  startConn exNet exTcp [SegRequest GETa; SegRequest GETb].

Definition exSchedule : list Action :=
  [RunOut 1 None; RunOut 2 None; RunOut 3 None;
   RunOut 4 None; RunOut 5 None;
   NewIn (Reverse exNet) (Reverse exTcp)
     [SegResponse 200 None; SegResponse 404 None] 6 None;
   RunIn 7 None; RunIn 8 None; RunIn 9 None; RunIn 10 None;
   RunOut 11 (Some "disk full"); RunOut 12 None;
   RunIn 13 None; RunIn 14 None; RunIn 15 None; RunIn 16 None;
   RunIn 17 None].

Definition exEnd : Conn :=
  Eval vm_compute in
    match run exStart exSchedule with Some (c, _) => c | None => exStart end.
Definition exTrace : list Event :=
  Eval vm_compute in
    match run exStart exSchedule with Some (_, tr) => tr | None => [] end.

(** Both requests stored, a response on the inbound stream, and then a
    further [New] for the key with a stream that holds the second
    response. *)
Definition exReplaceSchedule : list Action :=
  [RunOut 1 None; RunOut 2 None; RunOut 3 None;
   RunOut 4 None; RunOut 5 None; RunOut 6 None;
   NewIn (Reverse exNet) (Reverse exTcp) [SegResponse 200 None] 7 None;
   RunIn 8 None; RunIn 9 None; RunIn 10 None; RunIn 11 None;
   NewIn (Reverse exNet) (Reverse exTcp) [SegResponse 404 None] 12 None;
   RunIn 13 None; RunIn 14 None; RunIn 15 None; RunIn 16 None].

Definition exReplaced : Conn :=
  Eval vm_compute in
    match run exStart exReplaceSchedule with
    | Some (c, _) => c
    | None => exStart
    end.
Definition exReplacedTrace : list Event :=
  Eval vm_compute in
    match run exStart exReplaceSchedule with
    | Some (_, tr) => tr
    | None => []
    end.

(** The registry after the first direction, and after both. *)
Definition exHalfOpen : httpStreamFactory :=
  (New NewStreamFactory exNet exTcp [] 0 None).1.1.
Definition exFactory : httpStreamFactory :=
  (New exHalfOpen (Reverse exNet) (Reverse exTcp) [] 1 None).1.1.

(** A packet of the server with 20 bytes of payload, and one without an
    IPv4 layer. *)
Definition exPacket : Packet :=
  {| NetworkLayer := Some (Reverse exNet);
     TransportLayer := Some (Reverse exTcp);
     LayerIPv4 := Some {| Length := 60; IHL := 5 |};
     LayerTCP := Some {| DataOffset := 5 |} |}.
Definition exPacketNoIPv4 : Packet :=
  {| NetworkLayer := Some (Reverse exNet);
     TransportLayer := Some (Reverse exTcp);
     LayerIPv4 := None;
     LayerTCP := Some {| DataOffset := 5 |} |}.

(** 101 requests on the outbound stream and nobody reading the channel. *)
Definition exFullStart : Conn :=
  startConn exNet exTcp (replicate 101 (SegRequest GETa)).
Definition exFullSchedule : list Action :=
  concat (replicate 100 [RunOut 0 None; RunOut 0 None; RunOut 0 None])
  ++ [RunOut 0 None].
Definition exFull : Conn :=
  Eval vm_compute in
    match run exFullStart exFullSchedule with
    | Some (c, _) => c
    | None => exFullStart
    end.
Definition exFullTrace : list Event :=
  Eval vm_compute in
    match run exFullStart exFullSchedule with
    | Some (_, tr) => tr
    | None => []
    end.

(** One request, then a request cut short by the end of the input. *)
Definition exPartialStart : Conn :=
  startConn exNet exTcp [SegRequest GETa; SegMalformed "unexpected EOF"].
Definition exPartialSchedule : list Action :=
  [RunOut 1 None; RunOut 2 None; RunOut 3 None].
Definition exPartial : Conn :=
  Eval vm_compute in
    match run exPartialStart exPartialSchedule with
    | Some (c, _) => c
    | None => exPartialStart
    end.
Definition exPartialTrace : list Event :=
  Eval vm_compute in
    match run exPartialStart exPartialSchedule with
    | Some (_, tr) => tr
    | None => []
    end.

(** A response stream that starts with bytes that are no response. *)
Definition exBadInSchedule : list Action :=
  [RunOut 1 None; RunOut 2 None; RunOut 3 None;
   NewIn (Reverse exNet) (Reverse exTcp)
     [SegMalformed "malformed HTTP response"] 4 None;
   RunIn 5 None; RunIn 6 None].
Definition exBadIn : Conn :=
  Eval vm_compute in
    match run exPartialStart exBadInSchedule with
    | Some (c, _) => c
    | None => exPartialStart
    end.

(** [runOut] about to store its first request. *)
Definition exStore : Conn :=
  Eval vm_compute in
    match run exStart [RunOut 1 None; RunOut 2 None] with
    | Some (c, _) => c
    | None => exStart
    end.

(** [runOut] after the cut-short request, before and after [main] has set
    the [closed] flag of the stream. *)
Definition exFailed : Conn :=
  Eval vm_compute in
    match stepOut exPartial 4 None with
    | Some (c, _) => c
    | None => exPartial
    end.
Definition exFailedClosed : Conn :=
  Eval vm_compute in
    match markClosedOut exFailed with
    | Some (c, _) => c
    | None => exFailed
    end.
Definition exBadInFailed : Conn :=
  Eval vm_compute in
    match stepIn exBadIn 7 None with
    | Some (c, _) => c
    | None => exBadIn
    end.

(** ** More readings of traces and states *)

Definition keyOf (e : Event) : option uint64 :=
  match e with
  | OpenTCPConnection k _ | CloseTCPConnection k _
  | IncomingTCPPacket k _ | OutgoingTCPPacket k _
  | SentRequest k _ _ _ | ReceivedResponse k _ _ _ => Some k
  | _ => None
  end.

(** The keys the storage calls of a trace were made with. *)
Definition keys (tr : list Event) : list uint64 := omap keyOf tr.

Definition readErrorOf (e : Event) : option error :=
  match e with
  | Println msg err =>
      if String.eqb msg "Error reading stream" then Some err else None
  | _ => None
  end.

(** The parse errors a trace logs. *)
Definition readErrors (tr : list Event) : list error := omap readErrorOf tr.

Definition isRunOut (a : Action) : bool :=
  match a with RunOut _ _ => true | _ => false end.

Definition isRunIn (a : Action) : bool :=
  match a with RunIn _ _ => true | _ => false end.

Definition isRunOld (a : Action) : bool :=
  match a with RunOldIn _ _ _ => true | _ => false end.

Definition isNewIn (a : Action) : bool :=
  match a with NewIn _ _ _ _ _ => true | _ => false end.

(** The steps of [runOut] and of [runIn] in a schedule. *)
Definition countOut (sched : list Action) : nat :=
  length (filter (fun a => isRunOut a = true) sched).
Definition countIn (sched : list Action) : nat :=
  length (filter (fun a => isRunIn a = true) sched).

(** The calls of [New] for the key of the connection after the first. *)
Definition countNew (sched : list Action) : nat :=
  length (filter (fun a => isNewIn a = true) sched).

(** The steps of the goroutines [runIn] of replaced streams. *)
Definition countOld (sched : list Action) : nat :=
  length (filter (fun a => isRunOld a = true) sched).

(** A bound on the steps [runOut] has left: three for each segment it has
    still to read, and what is left of the round it is in. *)
Definition outFuel (c : Conn) : nat :=
  match out (bds c) with
  | None => 0
  | Some h =>
      3 * length (readStream h)
      + match out_pc c with
        | OutRead => 1
        | OutFailed _ => 2
        | OutSend _ => 3
        | OutStore _ => 2
        | OutReturned => 0
        end
  end%nat.

(** The same for [runIn], with four steps for a segment. *)
Definition inFuel (c : Conn) : nat :=
  match in_ (bds c), inG c with
  | Some h, Some g =>
      4 * length (readStream h)
      + match in_pc g with
        | InPeek => 3
        | InRecv => 2
        | InRead _ => 1
        | InFailed _ => 4
        | InStore _ => 4
        | InReturned => 0
        end
  | _, _ => 0
  end%nat.

(** The bound of one goroutine [runIn] on its stream. *)
Definition taskFuel (h : TCPStream) (g : InLocals) : nat :=
  (4 * length (readStream h)
   + match in_pc g with
     | InPeek => 3
     | InRecv => 2
     | InRead _ => 1
     | InFailed _ => 4
     | InStore _ => 4
     | InReturned => 0
     end)%nat.

(** The bounds of the goroutines of the replaced streams, added up. *)
Definition oldFuel (c : Conn) : nat :=
  sum_list_with (fun t => taskFuel (task_stream t) (task_locals t))
    (replaced c).

(** What the calls of [New] in a schedule add to the bound: each starts
    a goroutine [runIn] at the head of its loop on a new stream. *)
Definition attachFuel (sched : list Action) : nat :=
  sum_list_with
    (fun a => match a with
              | NewIn _ _ rs _ _ => 4 * length rs + 3
              | _ => 0
              end)%nat
    sched.

(** What [runOut] does on its own with a stream of complete requests and
    room in the channel: for each request the body close, the push and the
    [SentRequest] under the next counter value, and [CloseTCPConnection]
    at the end. *)
Fixpoint outTrace (k : uint64) (t : Time) (id : int64) (reqs : list Request)
  : list Event :=
  match reqs with
  | [] => [CloseTCPConnection k t]
  | r :: reqs =>
      BodyClose r :: ChanSend r :: SentRequest k id t r
      :: outTrace k t (incr64 id) reqs
  end.

(** Both streams of the connection are attached and marked closed. *)
Definition bothClosed (c : Conn) : Prop :=
  closed <$> out (bds c) = Some true ∧ closed <$> in_ (bds c) = Some true.

(** The streams that were replaced as [in] carry the flag as well.  The
    end of [main] does not reach them: it marks [v.in] and [v.out]. *)
Definition oldClosed (c : Conn) : Prop :=
  Forall (fun t => closed (task_stream t) = true) (replaced c).

(** ** Sequences of [New] and the end of [main] *)

(** The arguments of one call of [New]. *)
Record NewCall := mkNewCall {
  call_netFlow : Flow;
  call_tcpFlow : Flow;
  call_bytes : ReaderStream;
  call_now : Time;
  call_err : option error
}.

Definition callKey (a : NewCall) : uint64 :=
  connKey (call_netFlow a) (call_tcpFlow a).

(** The calls of [New] the assembler makes, one after the other. *)
Fixpoint News (h : httpStreamFactory) (calls : list NewCall)
  : httpStreamFactory * list Event :=
  match calls with
  | [] => (h, [])
  | a :: calls =>
      let '(h', evs, _) :=
        New h (call_netFlow a) (call_tcpFlow a) (call_bytes a)
            (call_now a) (call_err a) in
      let '(h'', tr) := News h' calls in
      (h'', evs ++ tr)
  end.

(** What [New] keeps true of every entry of the registry: it is stored
    under its own key, its outbound stream is set, its streams carry the
    key, and its channel has capacity 100. *)
Definition registryOK (h : httpStreamFactory) : Prop :=
  ∀ k b, bidiStreams h !! k = Some b →
    key b = k
    ∧ (∃ ho, out b = Some ho ∧ bidikey ho = k)
    ∧ (∀ hi, in_ b = Some hi → bidikey hi = k)
    ∧ cap (requests b) = 100%nat.

(** The end of [main], lines 418-426: [streamFactory.closed = true], and
    for every [BidiStream] of the registry [v.in.closed = true] if [v.in]
    is set and [v.out.closed = true] if [v.out] is set. *)
Definition markBidiClosed (v : BidiStream) : BidiStream :=
  {| key := key v;
     in_ := (fun h => set_closed h true) <$> in_ v;
     out := (fun h => set_closed h true) <$> out v;
     requests := requests v |}.

Definition markAllClosed (h : httpStreamFactory) : httpStreamFactory :=
  {| bidiStreams := markBidiClosed <$> bidiStreams h;
     factory_closed := true |}.

(** ** More invariants of runs *)

(** The streams of the connection carry its key, and so does every
    storage call behind it. *)
Definition keyInv (k : uint64) (c : Conn) (tr : list Event) : Prop :=
  key (bds c) = k
  ∧ (∀ h, out (bds c) = Some h → bidikey h = k)
  ∧ (∀ h, in_ (bds c) = Some h → bidikey h = k)
  ∧ Forall (fun t => bidikey (task_stream t) = k) (replaced c)
  ∧ Forall (fun k' => k' = k) (keys tr).

(** The goroutines [runIn] of the connection: those of the replaced
    streams in the order they were started, then the one of [in]. *)
Definition tasks (c : Conn) : list InTask :=
  match in_ (bds c), inG c with
  | Some h, Some g =>
      replaced c ++ [{| task_stream := h; task_locals := g |}]
  | _, _ => replaced c
  end.

(** A stream is replaced only when [in] is set and has its goroutine. *)
Definition wfIn (c : Conn) : Prop :=
  in_ (bds c) = None ∨ inG c = None → replaced c = [].

(** The requests a goroutine [runIn] has popped and not answered yet:
    the one its stream holds in [reqInProgress]. *)
Definition pending (t : InTask) : nat :=
  match reqInProgress (task_stream t) with Some _ => 1%nat | None => 0%nat end.

(** Where a goroutine [runIn] stands agrees with [reqInProgress]. *)
Definition taskOK (t : InTask) : Prop :=
  match in_pc (task_locals t) with
  | InRecv => reqInProgress (task_stream t) = None
  | InRead req => reqInProgress (task_stream t) = Some req
  | InStore resp => reqInProgress (task_stream t) = Some (Request_ resp)
  | _ => True
  end.

(** What one step of a goroutine [runIn] does: [t] and [t'] are the
    goroutine before and after, [before] and [after] what the channel
    holds, [evs] the events of the step. *)
Definition taskStep (t t' : InTask) (before after : list Request)
    (evs : list Event) : Prop :=
  bidikey (task_stream t') = bidikey (task_stream t)
  ∧ closed (task_stream t') = closed (task_stream t)
  ∧ before = popped evs ++ after
  ∧ pushed evs = [] ∧ bodyClosed evs = [] ∧ sent evs = []
  ∧ closes evs = [] ∧ opens evs = []
  ∧ Forall (fun k => k = bidikey (task_stream t)) (keys evs)
  ∧ (closed (task_stream t) = true → readErrors evs = [])
  ∧ (taskOK t →
     taskOK t'
     ∧ (length (popped evs) + pending t
        = length (received evs) + pending t')%nat)
  ∧ (1 + taskFuel (task_stream t') (task_locals t')
     ≤ taskFuel (task_stream t) (task_locals t))%nat.

(** Every popped request has its response stored or is in progress in
    one of the goroutines. *)
Definition pendingInv (c : Conn) (tr : list Event) : Prop :=
  Forall taskOK (tasks c)
  ∧ length (popped tr)
    = (length (received tr) + sum_list_with pending (tasks c))%nat.

(** One [OpenTCPConnection] with the key for each goroutine [runIn]
    started, and nothing of [runIn] before the first. *)
Definition openInv (c : Conn) (tr : list Event) : Prop :=
  Forall (fun o => o.1 = key (bds c)) (opens tr)
  ∧ length (opens tr) = length (tasks c)
  ∧ (tasks c = [] → popped tr = [] ∧ received tr = []).

(** [runOut] without [runIn]: it has read as many requests of the stream
    as the channel holds, and one more while it waits to push. *)
Definition stallInv (reqs : list Request) (rest : ReaderStream)
    (c : Conn) (tr : list Event) : Prop :=
  in_ (bds c) = None →
  replaced c = []
  ∧ ∃ h n, out (bds c) = Some h
    ∧ readStream h = drop n (map SegRequest reqs) ++ rest
    ∧ cap (requests (bds c)) = 100%nat
    ∧ (length (buf (requests (bds c))) ≤ 100)%nat
    ∧ match out_pc c with
      | OutRead | OutStore _ => n = length (buf (requests (bds c)))
      | OutSend _ => n = S (length (buf (requests (bds c))))
      | _ => False
      end.

(** What [runIn] does on its own when the channel holds the requests its
    responses answer: for each response the pop of the next request, the
    log line of its body if the body ended badly, and [ReceivedResponse]
    under the next counter value with the popped request. *)
Fixpoint inTrace (k : uint64) (t : Time) (id : int64)
    (pairs : list (Request * (Z * option error))) : list Event :=
  match pairs with
  | [] => []
  | (r, (status, body)) :: pairs =>
      ChanRecv r
      :: logIfErr "Error discarding bytes " body
      ++ ReceivedResponse k id t
           {| StatusCode := status; Body := body; Request_ := r |}
         :: inTrace k t (incr64 id) pairs
  end.

(** ** More states to run the model on *)

(** The connection of [exBadIn] after [main] has marked both streams. *)
Definition exBothClosed : Conn :=
  Eval vm_compute in
    match markClosedOut exBadIn with
    | Some (c, _) =>
        match markClosedIn c with Some (c', _) => c' | None => c end
    | None => exBadIn
    end.
Definition exBothClosedEnd : Conn :=
  Eval vm_compute in
    match run exBothClosed [RunIn 7 None; RunIn 8 None; RunIn 9 None] with
    | Some (c, _) => c
    | None => exBothClosed
    end.

(** Both requests of [exStart] stored by [runOut] on its own, then the
    inbound stream attached with the two responses. *)
Definition exPipelined : Conn :=
  Eval vm_compute in
    match run exStart
            (replicate 7 (RunOut 1 None)
             ++ [NewIn (Reverse exNet) (Reverse exTcp)
                   [SegResponse 200 None; SegResponse 404 None] 2 None])
    with
    | Some (c, _) => c
    | None => exStart
    end.

(** A connection from 127.0.0.1 to itself. *)
Definition exLoopNet : Flow :=
  {| typ := 2; src := [x7f; x00; x00; x01]; dst := [x7f; x00; x00; x01] |}.

(** The second direction, the first direction again, and another
    connection. *)
Definition exCalls : list NewCall :=
  [ {| call_netFlow := Reverse exNet; call_tcpFlow := Reverse exTcp;
       call_bytes := []; call_now := 1; call_err := None |};
    {| call_netFlow := exNet; call_tcpFlow := exTcp;
       call_bytes := []; call_now := 2; call_err := None |};
    {| call_netFlow := exLoopNet; call_tcpFlow := exTcp;
       call_bytes := []; call_now := 3; call_err := None |} ].

(** A captured packet whose total length field is 0. *)
Definition exZeroLength : IPv4 := {| Length := 0; IHL := 5 |}.

(** [exBadIn] two steps of [runIn] later. *)
Definition exBadInNext : Conn :=
  Eval vm_compute in
    match run exBadIn [RunIn 7 None; RunIn 8 None] with
    | Some (c, _) => c
    | None => exBadIn
    end.

(** * Properties *)

(** ** The connection key *)

Lemma FastHash_Reverse (a : Flow) : FastHash (Reverse a) = FastHash a.
Proof.
  unfold FastHash, Reverse; simpl.
  by rewrite (Z.add_comm (fnvHash (dst a))).
Qed.

Lemma connKey_Reverse (netFlow tcpFlow : Flow) :
  connKey (Reverse netFlow) (Reverse tcpFlow) = connKey netFlow tcpFlow.
Proof. unfold connKey. by rewrite !FastHash_Reverse. Qed.

(** C2: the key computed from the flows of one direction of a connection
    equals the key computed from the flows of the opposite direction, and
    so does each of the two hashes it is the XOR of; the key is a function
    of the flows alone, so no order of observation enters it. *)
Theorem connKey_direction_independent (netFlow tcpFlow : Flow) :
  connKey (Reverse netFlow) (Reverse tcpFlow) = connKey netFlow tcpFlow
  ∧ FastHash (Reverse netFlow) = FastHash netFlow
  ∧ FastHash (Reverse tcpFlow) = FastHash tcpFlow
  ∧ bidikey (newTCPStream (Reverse netFlow) (Reverse tcpFlow) [])
    = bidikey (newTCPStream netFlow tcpFlow []).
Proof.
  unfold connKey; simpl. unfold connKey.
  rewrite !FastHash_Reverse. done.
Qed.

(** ** The registry *)

Lemma opens_logIfErr msg err : opens (logIfErr msg err) = [].
Proof. by destruct err. Qed.

Lemma filter_storage_logIfErr msg err :
  filter (fun e => isStorageCall e = true) (logIfErr msg err) = [].
Proof. by destruct err. Qed.

Lemma New_fresh h nf tf rs now err :
  bidiStreams h !! connKey nf tf = None →
  New h nf tf rs now err
  = ({| bidiStreams :=
          <[connKey nf tf :=
              {| key := connKey nf tf; in_ := None;
                 out := Some (newTCPStream nf tf rs);
                 requests := make_chan 100 |}]> (bidiStreams h);
        factory_closed := factory_closed h |}, [], GoRunOut).
Proof. intros H. unfold New. by rewrite H. Qed.

Lemma New_known h nf tf rs now err b :
  bidiStreams h !! connKey nf tf = Some b →
  New h nf tf rs now err
  = ({| bidiStreams :=
          <[connKey nf tf := set_in b (newTCPStream nf tf rs)]> (bidiStreams h);
        factory_closed := factory_closed h |},
     OpenTCPConnection (connKey nf tf) now
     :: logIfErr "Error storing connection" err, GoRunIn).
Proof. intros H. unfold New. by rewrite H. Qed.

(** C6: [New] on a key the registry does not hold stores a fresh
    [BidiStream] with only [out] set and an empty channel, starts [runOut]
    and calls nothing of the storage layer.  [New] on a key the registry
    holds keeps that [BidiStream], sets its [in] to the new stream, starts
    [runIn] and makes exactly one storage call, [OpenTCPConnection] with
    the key.  Other keys are left alone.  So the two calls for the two
    directions of one connection leave one [BidiStream] with both streams
    and exactly one [OpenTCPConnection], made by the second call. *)
Theorem New_register_then_attach (h : httpStreamFactory) (nf tf : Flow)
    (rs : ReaderStream) (now : Time) (err : option error) :
  let k := connKey nf tf in
  let hstream := newTCPStream nf tf rs in
  let h' := (New h nf tf rs now err).1.1 in
  let evs := (New h nf tf rs now err).1.2 in
  let go := (New h nf tf rs now err).2 in
  (∀ k', k' ≠ k → bidiStreams h' !! k' = bidiStreams h !! k')
  ∧ (bidiStreams h !! k = None →
       bidiStreams h' !! k
       = Some {| key := k; in_ := None; out := Some hstream;
                 requests := make_chan 100 |}
       ∧ evs = [] ∧ go = GoRunOut)
  ∧ (∀ b, bidiStreams h !! k = Some b →
       bidiStreams h' !! k
       = Some {| key := key b; in_ := Some hstream; out := out b;
                 requests := requests b |}
       ∧ filter (fun e => isStorageCall e = true) evs
         = [OpenTCPConnection k now]
       ∧ opens evs = [(k, now)] ∧ go = GoRunIn)
  ∧ (bidiStreams h !! k = None →
     ∀ rs2 now2 err2,
       let r2 := New h' (Reverse nf) (Reverse tf) rs2 now2 err2 in
       bidiStreams r2.1.1 !! k
       = Some {| key := k;
                 in_ := Some (newTCPStream (Reverse nf) (Reverse tf) rs2);
                 out := Some hstream; requests := make_chan 100 |}
       ∧ filter (fun e => isStorageCall e = true) (evs ++ r2.1.2)
         = [OpenTCPConnection k now2]
       ∧ r2.2 = GoRunIn).
Proof.
  intros k hstream h' evs go. subst h' evs go.
  destruct (bidiStreams h !! k) as [b|] eqn:Hk.
  - rewrite (New_known _ _ _ _ _ _ b Hk). fold k. simpl.
    split; [intros k' Hne; by rewrite lookup_insert_ne|].
    split; [intros; discriminate|].
    split; [|intros; discriminate].
    intros b' [= <-]. rewrite lookup_insert_eq.
    rewrite filter_cons_True by done.
    rewrite filter_storage_logIfErr. unfold opens; simpl.
    fold (opens (logIfErr "Error storing connection" err)).
    by rewrite opens_logIfErr.
  - rewrite (New_fresh _ _ _ _ _ _ Hk). fold k. simpl.
    split; [intros k' Hne; by rewrite lookup_insert_ne|].
    split; [intros _; by rewrite lookup_insert_eq|].
    split; [intros; discriminate|].
    intros _ rs2 now2 err2.
    assert (Hrev : connKey (Reverse nf) (Reverse tf) = k)
      by apply connKey_Reverse.
    erewrite New_known; last first.
    { simpl. rewrite Hrev. apply lookup_insert_eq. }
    simpl. rewrite Hrev, insert_insert_eq, lookup_insert_eq.
    rewrite filter_cons_True by done.
    by rewrite filter_storage_logIfErr.
Qed.

(** ** Packet accounting *)

Lemma payloadLength_mod (ipv4 : IPv4) (tcp : TCP) :
  payloadLength ipv4 tcp
  = (Length ipv4 - 4 * IHL ipv4 - 4 * DataOffset tcp) mod 2 ^ 16.
Proof.
  unfold payloadLength, wrap16.
  rewrite (Zmult_mod_idemp_l (IHL ipv4)), (Zmult_mod_idemp_l (DataOffset tcp)).
  rewrite Zminus_mod_idemp_r, Zminus_mod_idemp_l.
  replace (Length ipv4 - (IHL ipv4 * 4) mod 2 ^ 16 - DataOffset tcp * 4)
    with (Length ipv4 - DataOffset tcp * 4 - (IHL ipv4 * 4) mod 2 ^ 16) by lia.
  rewrite Zminus_mod_idemp_r. f_equal. lia.
Qed.

Lemma payloadLength_exact (ipv4 : IPv4) (tcp : TCP) :
  0 ≤ IHL ipv4 → 0 ≤ DataOffset tcp →
  4 * IHL ipv4 + 4 * DataOffset tcp ≤ Length ipv4 < 2 ^ 16 →
  payloadLength ipv4 tcp = Length ipv4 - 4 * IHL ipv4 - 4 * DataOffset tcp.
Proof.
  intros Hi Hd Hl. rewrite payloadLength_mod.
  apply Z.mod_small. lia.
Qed.

Lemma LogPacketSize_established h packet err nf tf bin bout ipv4 tcp :
  NetworkLayer packet = Some nf → TransportLayer packet = Some tf →
  established h (connKey nf tf) bin bout →
  LayerIPv4 packet = Some ipv4 → LayerTCP packet = Some tcp →
  LogPacketSize h packet err
  = ([if decide (netFlow bin = nf)
      then IncomingTCPPacket (connKey nf tf) (payloadLength ipv4 tcp)
      else OutgoingTCPPacket (connKey nf tf) (payloadLength ipv4 tcp)],
     panicIfErr err).
Proof.
  intros Hn Ht (b & Hb & Hin & Hout) Hi Hc.
  unfold LogPacketSize. rewrite Hn, Ht, Hb, Hin, Hout, Hi, Hc.
  by destruct (decide (netFlow bin = nf)).
Qed.

Lemma LogPacketSize_ignored h packet err nf tf :
  NetworkLayer packet = Some nf → TransportLayer packet = Some tf →
  notEstablished h (connKey nf tf) →
  LogPacketSize h packet err = ([], Returned).
Proof.
  intros Hn Ht Hne. unfold LogPacketSize. rewrite Hn, Ht.
  destruct Hne as [-> | (b & -> & [Hb | Hb])]; [done | |].
  - by rewrite Hb.
  - rewrite Hb. by destruct (in_ b).
Qed.

(** C7: for a packet with a network and a transport flow, when its key
    is unknown to the registry or has one direction only, [LogPacketSize]
    returns without any event, whatever the storage layer would answer.
    When the connection is established and the packet has its IPv4 and TCP
    layers, exactly one storage call is made, with the key and the payload
    length [Length - 4*IHL - 4*DataOffset] in the 16-bit arithmetic of the
    code (the plain difference whenever the headers fit in the total
    length): [IncomingTCPPacket] when the network flow of the packet is the
    one of the [in] stream, [OutgoingTCPPacket] otherwise. *)
Theorem LogPacketSize_contract (h : httpStreamFactory) (packet : Packet)
    (err : option error) (nf tf : Flow) :
  NetworkLayer packet = Some nf → TransportLayer packet = Some tf →
  let k := connKey nf tf in
  (notEstablished h k → LogPacketSize h packet err = ([], Returned))
  ∧ (∀ bin bout ipv4 tcp,
       established h k bin bout →
       LayerIPv4 packet = Some ipv4 → LayerTCP packet = Some tcp →
       let n := (Length ipv4 - 4 * IHL ipv4 - 4 * DataOffset tcp) mod 2 ^ 16 in
       (LogPacketSize h packet err).1
       = [if decide (netFlow bin = nf)
          then IncomingTCPPacket k n else OutgoingTCPPacket k n]
       ∧ (0 ≤ IHL ipv4 → 0 ≤ DataOffset tcp →
          4 * IHL ipv4 + 4 * DataOffset tcp ≤ Length ipv4 < 2 ^ 16 →
          n = Length ipv4 - 4 * IHL ipv4 - 4 * DataOffset tcp)).
Proof.
  intros Hn Ht k. split.
  - intros Hne. by eapply LogPacketSize_ignored.
  - intros bin bout ipv4 tcp Hest Hi Hc n. split.
    + erewrite LogPacketSize_established by eassumption.
      simpl. fold k. by rewrite payloadLength_mod.
    + intros ? ? ?. subst n. rewrite <- payloadLength_mod.
      by apply payloadLength_exact.
Qed.

(** C10: once the connection of the packet is established,
    [LogPacketSize] reads the fields of the IPv4 and of the TCP layer
    without testing them for nil: a packet without one of the two layers
    makes it fault on a nil pointer before any storage call, and a packet
    with both does not fault that way.  Before the connection is
    established the function returns ahead of the field reads. *)
Theorem LogPacketSize_nil_layer (h : httpStreamFactory) (packet : Packet)
    (err : option error) (nf tf : Flow) :
  NetworkLayer packet = Some nf → TransportLayer packet = Some tf →
  (∀ bin bout, established h (connKey nf tf) bin bout →
     (LayerIPv4 packet = None ∨ LayerTCP packet = None →
      LogPacketSize h packet err = ([], Panicked NilDereference))
     ∧ (is_Some (LayerIPv4 packet) → is_Some (LayerTCP packet) →
        (LogPacketSize h packet err).2 ≠ Panicked NilDereference))
  ∧ (notEstablished h (connKey nf tf) →
     (LogPacketSize h packet err).2 = Returned).
Proof.
  intros Hn Ht. split.
  - intros bin bout Hest. split.
    + destruct Hest as (b & Hb & Hin & Hout).
      unfold LogPacketSize. rewrite Hn, Ht, Hb, Hin, Hout.
      intros [-> | ->]; [done|]. by destruct (LayerIPv4 packet).
    + intros [ipv4 Hi] [tcp Hc].
      erewrite LogPacketSize_established by eassumption.
      simpl. by destruct err.
  - intros Hne. by erewrite LogPacketSize_ignored.
Qed.

(** ** Runs and invariants *)

Lemma run_app c sched1 sched2 :
  run c (sched1 ++ sched2)
  = match run c sched1 with
    | None => None
    | Some (c1, tr1) =>
        match run c1 sched2 with
        | None => None
        | Some (c2, tr2) => Some (c2, tr1 ++ tr2)
        end
    end.
Proof.
  revert c. induction sched1 as [|a sched1 IH]; intros c; simpl.
  - by destruct (run c sched2) as [[c2 tr2]|].
  - destruct (step c a) as [[c1 evs]|]; [|done].
    rewrite IH. destruct (run c1 sched1) as [[c2 tr1]|]; [|done].
    destruct (run c2 sched2) as [[c3 tr2]|]; [|done].
    by rewrite app_assoc.
Qed.

(** A property of a connection and the trace behind it that every step
    keeps holds along every run. *)
Lemma run_invariant (Inv : Conn → list Event → Prop) :
  (∀ c tr a c' evs,
     Inv c tr → step c a = Some (c', evs) → Inv c' (tr ++ evs)) →
  ∀ sched c tr c' tr',
    Inv c tr → run c sched = Some (c', tr') → Inv c' (tr ++ tr').
Proof.
  intros Hstep sched.
  induction sched as [|a sched IH]; intros c tr c' tr' Hinv Hrun; simpl in Hrun.
  - simplify_eq. by rewrite app_nil_r.
  - destruct (step c a) as [[c1 evs]|] eqn:Hs; [|done].
    destruct (run c1 sched) as [[c2 tr2]|] eqn:Hr; [|done].
    simplify_eq. rewrite app_assoc.
    eapply IH; [|done]. by eapply Hstep.
Qed.

Lemma wrapS64_succ (z : Z) : wrapS64 (wrapS64 z + 1) = wrapS64 (z + 1).
Proof.
  unfold wrapS64.
  replace ((z + 2 ^ 63) mod 2 ^ 64 - 2 ^ 63 + 1 + 2 ^ 63)
    with ((z + 2 ^ 63) mod 2 ^ 64 + 1) by lia.
  rewrite Zplus_mod_idemp_l. do 2 f_equal. lia.
Qed.

Lemma incr64_seqOf (n : nat) : incr64 (seqOf n) = seqOf (S n).
Proof.
  unfold incr64, seqOf. rewrite wrapS64_succ. f_equal. lia.
Qed.

Lemma seqOf_small (n : nat) : Z.of_nat n < 2 ^ 63 → seqOf n = Z.of_nat n.
Proof.
  intros H. unfold seqOf, wrapS64.
  rewrite Z.mod_small by lia. lia.
Qed.

Lemma numbered_snoc (l : list Request) (r : Request) :
  numbered (l ++ [r]) = numbered l ++ [(seqOf (length l), r)].
Proof.
  unfold numbered. rewrite imap_app. simpl.
  by rewrite Nat.add_0_r.
Qed.

Lemma numbered_length (l : list Request) : length (numbered l) = length l.
Proof. apply length_imap. Qed.

Lemma numbered_lookup (l : list Request) (i : nat) :
  numbered l !! i = (fun r => (seqOf i, r)) <$> l !! i.
Proof. unfold numbered. by rewrite list_lookup_imap. Qed.

Lemma numbered_prefix (l1 l2 : list Request) :
  l1 `prefix_of` l2 → numbered l1 `prefix_of` numbered l2.
Proof.
  intros [k ->]. unfold numbered. rewrite imap_app. by eexists.
Qed.

Section projections.
Context {A : Type} (f : Event → option A).

Lemma omap_logIfErr msg err :
  (∀ m e, f (Println m e) = None) → omap f (logIfErr msg err) = [].
Proof. intros H. destruct err; simpl; by rewrite ?H. Qed.

Lemma omap_log_unless (b : bool) msg e :
  (∀ m e, f (Println m e) = None) →
  omap f (if b then [] else [Println msg e]) = [].
Proof. intros H. destruct b; simpl; by rewrite ?H. Qed.
End projections.

Ltac trace_lemma := unfold pushed, popped, sent, received, bodyClosed, closes;
  first [ apply omap_app | by apply omap_logIfErr | by apply omap_log_unless ].

Lemma pushed_app tr1 tr2 : pushed (tr1 ++ tr2) = pushed tr1 ++ pushed tr2.
Proof. trace_lemma. Qed.
Lemma popped_app tr1 tr2 : popped (tr1 ++ tr2) = popped tr1 ++ popped tr2.
Proof. trace_lemma. Qed.
Lemma sent_app tr1 tr2 : sent (tr1 ++ tr2) = sent tr1 ++ sent tr2.
Proof. trace_lemma. Qed.
Lemma received_app tr1 tr2 :
  received (tr1 ++ tr2) = received tr1 ++ received tr2.
Proof. trace_lemma. Qed.
Lemma bodyClosed_app tr1 tr2 :
  bodyClosed (tr1 ++ tr2) = bodyClosed tr1 ++ bodyClosed tr2.
Proof. trace_lemma. Qed.
Lemma closes_app tr1 tr2 : closes (tr1 ++ tr2) = closes tr1 ++ closes tr2.
Proof. trace_lemma. Qed.

Lemma pushed_logIfErr msg err : pushed (logIfErr msg err) = [].
Proof. trace_lemma. Qed.
Lemma popped_logIfErr msg err : popped (logIfErr msg err) = [].
Proof. trace_lemma. Qed.
Lemma sent_logIfErr msg err : sent (logIfErr msg err) = [].
Proof. trace_lemma. Qed.
Lemma received_logIfErr msg err : received (logIfErr msg err) = [].
Proof. trace_lemma. Qed.
Lemma bodyClosed_logIfErr msg err : bodyClosed (logIfErr msg err) = [].
Proof. trace_lemma. Qed.
Lemma closes_logIfErr msg err : closes (logIfErr msg err) = [].
Proof. trace_lemma. Qed.

Lemma pushed_log_unless (b : bool) msg e :
  pushed (if b then [] else [Println msg e]) = [].
Proof. trace_lemma. Qed.
Lemma popped_log_unless (b : bool) msg e :
  popped (if b then [] else [Println msg e]) = [].
Proof. trace_lemma. Qed.
Lemma sent_log_unless (b : bool) msg e :
  sent (if b then [] else [Println msg e]) = [].
Proof. trace_lemma. Qed.
Lemma received_log_unless (b : bool) msg e :
  received (if b then [] else [Println msg e]) = [].
Proof. trace_lemma. Qed.
Lemma bodyClosed_log_unless (b : bool) msg e :
  bodyClosed (if b then [] else [Println msg e]) = [].
Proof. trace_lemma. Qed.
Lemma closes_log_unless (b : bool) msg e :
  closes (if b then [] else [Println msg e]) = [].
Proof. trace_lemma. Qed.

Lemma pushed_cons e tr :
  pushed (e :: tr) = option_list (pushedOf e) ++ pushed tr.
Proof. unfold pushed; simpl. by destruct (pushedOf e). Qed.
Lemma popped_cons e tr :
  popped (e :: tr) = option_list (poppedOf e) ++ popped tr.
Proof. unfold popped; simpl. by destruct (poppedOf e). Qed.
Lemma sent_cons e tr : sent (e :: tr) = option_list (sentOf e) ++ sent tr.
Proof. unfold sent; simpl. by destruct (sentOf e). Qed.
Lemma received_cons e tr :
  received (e :: tr) = option_list (receivedOf e) ++ received tr.
Proof. unfold received; simpl. by destruct (receivedOf e). Qed.
Lemma bodyClosed_cons e tr :
  bodyClosed (e :: tr) = option_list (bodyClosedOf e) ++ bodyClosed tr.
Proof. unfold bodyClosed; simpl. by destruct (bodyClosedOf e). Qed.
Lemma closes_cons e tr :
  closes (e :: tr) = option_list (closeOf e) ++ closes tr.
Proof. unfold closes; simpl. by destruct (closeOf e). Qed.

Lemma pushed_nil : pushed [] = [].
Proof. done. Qed.
Lemma popped_nil : popped [] = [].
Proof. done. Qed.
Lemma sent_nil : sent [] = [].
Proof. done. Qed.
Lemma received_nil : received [] = [].
Proof. done. Qed.
Lemma bodyClosed_nil : bodyClosed [] = [].
Proof. done. Qed.
Lemma closes_nil : closes [] = [].
Proof. done. Qed.

Create Rewrite HintDb trace.
#[global] Hint Rewrite
  pushed_app popped_app sent_app received_app bodyClosed_app closes_app
  pushed_cons popped_cons sent_cons received_cons bodyClosed_cons closes_cons
  pushed_nil popped_nil sent_nil received_nil bodyClosed_nil closes_nil
  pushed_logIfErr popped_logIfErr sent_logIfErr received_logIfErr
  bodyClosed_logIfErr closes_logIfErr
  pushed_log_unless popped_log_unless sent_log_unless received_log_unless
  bodyClosed_log_unless closes_log_unless : trace.

(** Splits the events of a step into the projections of the trace. *)
Ltac trace_simpl :=
  autorewrite with trace;
  cbn [option_list option_rect pushedOf poppedOf sentOf receivedOf
       bodyClosedOf closeOf app Request_];
  rewrite ?app_nil_r.

(** ** The steps of the goroutines, case by case *)

Lemma keys_app tr1 tr2 : keys (tr1 ++ tr2) = keys tr1 ++ keys tr2.
Proof. apply omap_app. Qed.

Lemma keys_logIfErr msg err : keys (logIfErr msg err) = [].
Proof. by destruct err. Qed.

Lemma keys_log_unless (b : bool) msg e :
  keys (if b then [] else [Println msg e]) = [].
Proof. by destruct b. Qed.

Lemma keys_cons e tr : keys (e :: tr) = option_list (keyOf e) ++ keys tr.
Proof. unfold keys; simpl. by destruct (keyOf e). Qed.

Lemma opens_app tr1 tr2 : opens (tr1 ++ tr2) = opens tr1 ++ opens tr2.
Proof. apply omap_app. Qed.

Lemma opens_cons e tr : opens (e :: tr) = option_list (openOf e) ++ opens tr.
Proof. unfold opens; simpl. by destruct (openOf e). Qed.

Lemma opens_log_unless (b : bool) msg e :
  opens (if b then [] else [Println msg e]) = [].
Proof. by destruct b. Qed.

Lemma readErrors_app tr1 tr2 :
  readErrors (tr1 ++ tr2) = readErrors tr1 ++ readErrors tr2.
Proof. apply omap_app. Qed.

(** The cases of a step of [runOut]: where it stood, what it read, and
    the state and events that follow. *)
Ltac out_cases Hs :=
  unfold stepOut in Hs; simpl in Hs;
  match type of Hs with
  | context [out ?b] => destruct (out b) as [?h|] eqn:?Hout; [|done]
  end;
  match type of Hs with
  | context [match ?pc with OutRead => _ | _ => _ end] =>
      destruct pc as [| ?e | ?req | ?req |]; try done
  end;
  [ unfold http.ReadRequest in Hs;
    match type of Hs with
    | context [readStream ?h] =>
        destruct (readStream h) as [|[?req|?st ?bd|?e] ?rest] eqn:?Hrs
    end; simplify_eq
  | simplify_eq
  | unfold send in Hs;
    match type of Hs with
    | context [(?x <? ?y)%nat] => destruct (x <? y)%nat eqn:?Hlt
    end; simplify_eq
  | simplify_eq ].

(** The cases of a step of [runIn]. *)
Ltac in_cases Hs :=
  unfold stepIn in Hs; simpl in Hs;
  match type of Hs with
  | context [in_ ?b] => destruct (in_ b) as [?hi|] eqn:?Hin; [|done]
  end;
  match type of Hs with
  | context [match ?g with Some _ => _ | None => _ end] =>
      destruct g as [[?ipc ?iid]|]; [|done]
  end;
  simpl in Hs;
  match type of Hs with
  | context [match ?pc with InPeek => _ | _ => _ end] =>
      destruct pc as [| | ?req | ?e | ?resp |]; try done
  end;
  [ match type of Hs with
    | context [bufio.PeekEOF ?s] => destruct (bufio.PeekEOF s) eqn:?Hpeek
    end;
    [ simplify_eq
    | match type of Hs with
      | context [reqInProgress ?h] =>
          destruct (reqInProgress h) eqn:?Hprog
      end; simplify_eq ]
  | unfold recv in Hs;
    match type of Hs with
    | context [buf ?ch] => destruct (buf ch) as [|?x ?rest] eqn:?Hbuf
    end; simplify_eq
  | unfold http.ReadResponse in Hs;
    match type of Hs with
    | context [readStream ?h] =>
        destruct (readStream h) as [|[?rq|?st ?bd|?e] ?rest] eqn:?Hrs
    end; simplify_eq
  | simplify_eq
  | simplify_eq ].

(** The cases of the other actions. *)
Ltac attach_cases Hs :=
  unfold attach in Hs; simpl in Hs; case_decide; simplify_eq.

Ltac closeIn_cases Hs :=
  unfold markClosedIn in Hs; simpl in Hs;
  match type of Hs with
  | context [in_ ?b] => destruct (in_ b) eqn:?Hin; simplify_eq
  end.

Ltac closeOut_cases Hs :=
  unfold markClosedOut in Hs; simpl in Hs;
  match type of Hs with
  | context [out ?b] => destruct (out b) eqn:?Hout; simplify_eq
  end.

(** The events of a step of [runIn], read by every projection. *)
Ltac task_goal :=
  unfold taskStep, taskOK, pending, taskFuel; simpl;
  rewrite ?keys_cons, ?keys_logIfErr, ?keys_log_unless,
    ?opens_cons, ?opens_logIfErr, ?opens_log_unless;
  trace_simpl; simpl.

Lemma stepIn_effect c now err c1 evs :
  stepIn c now err = Some (c1, evs) →
  ∃ h g h' g' rest,
    in_ (bds c) = Some h ∧ inG c = Some g
    ∧ c1 = {| bds := {| key := key (bds c); in_ := Some h';
                        out := out (bds c);
                        requests := {| buf := rest;
                                       cap := cap (requests (bds c)) |} |};
              out_pc := out_pc c; out_reqID := out_reqID c;
              inG := Some g'; replaced := replaced c |}
    ∧ taskStep {| task_stream := h; task_locals := g |}
        {| task_stream := h'; task_locals := g' |}
        (buf (requests (bds c))) rest evs.
Proof.
  intros Hs. destruct c as [b opc oid ig old].
  in_cases Hs; destruct b as [k bi bo [bf cp]]; simpl in *; simplify_eq.
  all: eexists _, _, _, _, _; split; [done|]; split; [done|];
    split; [reflexivity|].
  all: task_goal; rewrite ?Hrs, ?Hprog; simpl.
  all: split_and!; try done; try lia.
  all: try by (repeat constructor).
  all: try by (intros ->).
  all: try by destruct err.
  all: try by destruct bd.
  all: try (intros ->; split; [done|]; simpl; lia).
  all: try (intros _; split; [done|]; simpl; try lia).
Qed.

Lemma stepOld_effect c i now err c' evs :
  stepOld c i now err = Some (c', evs) →
  ∃ t t' rest,
    replaced c !! i = Some t
    ∧ c' = {| bds := {| key := key (bds c); in_ := in_ (bds c);
                        out := out (bds c);
                        requests := {| buf := rest;
                                       cap := cap (requests (bds c)) |} |};
              out_pc := out_pc c; out_reqID := out_reqID c;
              inG := inG c; replaced := <[i := t']> (replaced c) |}
    ∧ taskStep t t' (buf (requests (bds c))) rest evs.
Proof.
  unfold stepOld. intros Hs.
  destruct (replaced c !! i) as [[h g]|] eqn:Hlk; [|done]. simpl in Hs.
  destruct (stepIn _ now err) as [[c1 evs1]|] eqn:H1; [|done].
  apply stepIn_effect in H1
    as (h0 & g0 & h' & g' & rest & Hin & Hg & -> & Hts).
  simpl in *. simplify_eq. by eexists _, _, _.
Qed.

(** Takes a step of [runIn] apart, for the goroutine of [in] and for one
    of a replaced stream. *)
Ltac in_effect Hs :=
  apply stepIn_effect in Hs
    as (?h & ?g & ?h' & ?g' & ?rest & ?Hin & ?Hg & -> & ?Hts);
  simpl in *; simplify_eq.

Ltac old_effect Hs :=
  apply stepOld_effect in Hs as (?t & ?t' & ?rest & ?Hlk & -> & ?Hts);
  simpl in *.

(** A step never forgets a replaced stream. *)
Lemma step_replaced c a c' evs :
  step c a = Some (c', evs) → replaced c' = [] →
  replaced c = [] ∧ isRunOld a = false
  ∧ (isNewIn a = true → in_ (bds c) = None ∨ inG c = None).
Proof.
  intros Hs Hnil. destruct c as [b opc oid ig old]. simpl in *.
  destruct a as [now err|now err|i now err|nf tf rs now err| |]; simpl in Hs.
  - out_cases Hs; by simpl in *.
  - in_effect Hs. done.
  - old_effect Hs. apply (f_equal length) in Hnil.
    rewrite length_insert in Hnil. by destruct old.
  - attach_cases Hs. simpl in Hnil.
    destruct (in_ b), ig; try (by destruct old); split_and!; eauto.
  - closeIn_cases Hs. by simpl in *.
  - closeOut_cases Hs. by simpl in *.
Qed.

(** Each [New] of a schedule starts one goroutine [runIn], and nothing
    else changes how many there are. *)
Lemma step_tasks c a c' evs :
  step c a = Some (c', evs) →
  length (tasks c') = (length (tasks c) + if isNewIn a then 1 else 0)%nat.
Proof.
  intros Hs. destruct c as [b opc oid ig old]; unfold tasks; simpl in *.
  destruct a as [now err|now err|i now err|nf tf rs now err| |]; simpl in Hs.
  - out_cases Hs; simpl; lia.
  - in_effect Hs. rewrite Hin, !length_app. simpl. lia.
  - old_effect Hs.
    destruct (in_ b), ig; rewrite ?length_app, ?length_insert; lia.
  - attach_cases Hs. simpl.
    destruct (in_ b), ig; rewrite ?length_app; simpl; lia.
  - closeIn_cases Hs. simpl. destruct ig; rewrite ?length_app; simpl; lia.
  - closeOut_cases Hs. simpl. lia.
Qed.

Lemma step_wfIn c a c' evs :
  wfIn c → step c a = Some (c', evs) → wfIn c'.
Proof.
  intros Hwf Hs. destruct c as [b opc oid ig old]; unfold wfIn in *.
  simpl in *.
  destruct a as [now err|now err|i now err|nf tf rs now err| |]; simpl in Hs.
  - out_cases Hs; by simpl.
  - in_effect Hs. by intros [|].
  - old_effect Hs. intros Hno. rewrite (Hwf Hno) in Hlk. done.
  - attach_cases Hs. simpl. by intros [|].
  - closeIn_cases Hs. simpl. intros [|]; [done|]. apply Hwf. by right.
  - closeOut_cases Hs. by simpl.
Qed.

Lemma run_countNew c sched c' tr :
  wfIn c → run c sched = Some (c', tr) →
  wfIn c' ∧ length (tasks c') = (length (tasks c) + countNew sched)%nat.
Proof.
  revert c tr. induction sched as [|a sched IH]; intros c tr Hwf Hrun;
    simpl in Hrun.
  - simplify_eq. split; [done|]. unfold countNew. simpl. lia.
  - destruct (step c a) as [[c1 evs]|] eqn:Hs; [|done].
    destruct (run c1 sched) as [[c2 tr2]|] eqn:Hr; [|done]. simplify_eq.
    destruct (IH _ _ (step_wfIn _ _ _ _ Hwf Hs) Hr) as [Hwf' Hlen].
    split; [done|]. rewrite Hlen, (step_tasks _ _ _ _ Hs).
    unfold countNew. rewrite filter_cons.
    destruct (isNewIn a); case_decide; try done; simpl; lia.
Qed.

(** With at most one further [New] for the key, no inbound stream of the
    connection has been replaced. *)
Lemma countNew_replaced nf tf rs sched c tr :
  run (startConn nf tf rs) sched = Some (c, tr) →
  (countNew sched ≤ 1)%nat → replaced c = [].
Proof.
  intros Hrun Hle.
  assert (H0 : wfIn (startConn nf tf rs)) by (by intros _).
  destruct (run_countNew _ _ _ _ H0 Hrun) as [Hwf Hlen].
  unfold wfIn, tasks in *. simpl in Hlen.
  destruct (in_ (bds c)), (inG c); try (apply Hwf; by eauto).
  rewrite length_app in Hlen. simpl in Hlen.
  destruct (replaced c); [done|]. simpl in Hlen. lia.
Qed.

(** ** The channel pairs the requests and the responses in order *)

(** Unfolds the invariant in the goal and reads the new events. *)
Ltac inv_goal :=
  unfold fifoInv, outInv, inInv, chanInv; simpl; trace_simpl.

Lemma step_outChan c tr a c' evs :
  outInv c tr → chanInv c tr → step c a = Some (c', evs) →
  outInv c' (tr ++ evs) ∧ chanInv c' (tr ++ evs).
Proof.
  intros (Ho1 & Hid & Hsent) Hc Hs.
  destruct c as [b opc oid ig old]. unfold chanInv in Hc. simpl in *.
  destruct a as [now err|now err|i now err|nf tf rs now err| |]; simpl in Hs.
  - unfold stepOut in Hs. simpl in Hs.
    destruct (out b) as [h|] eqn:Hout; [|done].
    destruct opc as [| e | req | req |]; simplify_eq.
    + unfold http.ReadRequest in Hs.
      destruct (readStream h) as [|[req|st bd|e] rest]; simplify_eq;
        inv_goal; by split_and!.
    + inv_goal; by split_and!.
    + unfold send in Hs.
      destruct (_ <? _)%nat; simplify_eq. inv_goal.
      split_and!; try done; eauto.
      rewrite Hc. by rewrite app_assoc.
    + destruct Hsent as (ps & Hp & Hsent). inv_goal.
      rewrite Hsent. split_and!; try done.
      * rewrite length_app, numbered_length. simpl.
        rewrite incr64_seqOf. f_equal. lia.
      * by rewrite Hp, numbered_snoc, numbered_length.
  - in_effect Hs. destruct Hts as (_ & _ & Hbuf & Hpu & _ & Hse & _).
    unfold outInv, chanInv. simpl.
    rewrite pushed_app, sent_app, popped_app, Hpu, Hse, !app_nil_r.
    split; [done|]. by rewrite Hc, Hbuf, app_assoc.
  - old_effect Hs. destruct Hts as (_ & _ & Hbuf & Hpu & _ & Hse & _).
    unfold outInv, chanInv. simpl.
    rewrite pushed_app, sent_app, popped_app, Hpu, Hse, !app_nil_r.
    split; [done|]. by rewrite Hc, Hbuf, app_assoc.
  - attach_cases Hs. inv_goal. by split_and!.
  - closeIn_cases Hs. inv_goal. by split_and!.
  - closeOut_cases Hs. inv_goal. by split_and!.
Qed.

Lemma step_inInv c tr a c' evs :
  inInv c tr → replaced c' = [] → step c a = Some (c', evs) →
  inInv c' (tr ++ evs).
Proof.
  intros Hi Hnil Hs.
  destruct (step_replaced _ _ _ _ Hs Hnil) as (_ & Hold & Hnew).
  destruct c as [b opc oid ig old]. unfold inInv in Hi. simpl in *.
  destruct a as [now err|now err|i now err|nf tf rs now err| |];
    simpl in Hs; try done.
  - out_cases Hs; by inv_goal.
  - unfold stepIn in Hs. simpl in Hs.
    destruct (in_ b) as [h|] eqn:Hin; [|done].
    destruct ig as [[ipc iid]|]; [|done].
    simpl in *. destruct Hi as (Hid & Hprog & Hpc).
    destruct ipc as [| | req | e | resp |]; simplify_eq.
    + destruct (bufio.PeekEOF (readStream h)); simplify_eq.
      * inv_goal. rewrite Hin. by split_and!.
      * destruct (reqInProgress h) eqn:Hr; simplify_eq; inv_goal;
          rewrite Hin, ?Hr; by split_and!.
    + unfold recv in Hs.
      destruct (buf (requests b)) as [|x rest] eqn:Hb; simplify_eq.
      inv_goal. rewrite Hpc in Hprog. split_and!; try done. eauto.
    + unfold http.ReadResponse in Hs.
      destruct (readStream h) as [|[rq|st bd|e] rest]; simplify_eq;
        inv_goal; rewrite ?Hpc in *; by split_and!.
    + inv_goal. rewrite Hin. by split_and!.
    + rewrite Hpc in Hprog. destruct Hprog as (qs & Hq & Hrec).
      inv_goal. rewrite Hrec. split_and!; try done.
      * rewrite length_app, numbered_length. simpl.
        rewrite incr64_seqOf. f_equal. lia.
      * by rewrite Hq, numbered_snoc, numbered_length.
  - attach_cases Hs.
    assert (in_ b = None ∧ ig = None) as [Hin ->].
    { destruct (in_ b), ig; try done. by destruct (Hnew eq_refl). }
    rewrite Hin in Hi. destruct Hi as [Hp Hr].
    inv_goal. rewrite Hp, Hr. by split_and!.
  - closeIn_cases Hs. inv_goal. by destruct ig.
  - closeOut_cases Hs. by inv_goal.
Qed.

Lemma step_fifo c tr a c' evs :
  outInv c tr ∧ chanInv c tr ∧ (replaced c = [] → inInv c tr) →
  step c a = Some (c', evs) →
  outInv c' (tr ++ evs) ∧ chanInv c' (tr ++ evs)
  ∧ (replaced c' = [] → inInv c' (tr ++ evs)).
Proof.
  intros (Ho & Hc & Hi) Hs.
  destruct (step_outChan _ _ _ _ _ Ho Hc Hs) as [Ho' Hc'].
  split; [done|]. split; [done|]. intros Hnil.
  destruct (step_replaced _ _ _ _ Hs Hnil) as (Hnil0 & _).
  by eapply step_inInv; [apply Hi| |].
Qed.

Lemma fifoInv_start nf tf rs : fifoInv (startConn nf tf rs) [].
Proof.
  unfold fifoInv, outInv, inInv, chanInv. simpl.
  split_and!; by eauto.
Qed.

Lemma outChan_reachable nf tf rs sched c tr :
  run (startConn nf tf rs) sched = Some (c, tr) →
  outInv c tr ∧ chanInv c tr ∧ (replaced c = [] → inInv c tr).
Proof.
  intros Hrun.
  destruct (fifoInv_start nf tf rs) as (Ho & Hi & Hc).
  by apply (run_invariant
              (fun c tr => outInv c tr ∧ chanInv c tr
                           ∧ (replaced c = [] → inInv c tr))
              step_fifo sched _ [] _ _ (conj Ho (conj Hc (fun _ => Hi)))
              Hrun).
Qed.

(** What the invariants say of the trace alone. *)
Lemma outInv_trace c tr :
  outInv c tr → ∃ ps, ps `prefix_of` pushed tr ∧ sent tr = numbered ps.
Proof.
  intros (_ & _ & Ho).
  destruct (out_pc c); try by (eexists; split; [|done]).
  destruct Ho as (ps & -> & ->). exists ps. split; [by eexists|done].
Qed.

Lemma inInv_trace c tr :
  inInv c tr → ∃ qs, qs `prefix_of` popped tr ∧ received tr = numbered qs.
Proof.
  intros Hi. unfold inInv in Hi.
  destruct (in_ (bds c)) as [h|], (inG c) as [g|]; try done.
  - destruct Hi as (_ & Hp & _). destruct (reqInProgress h).
    + destruct Hp as (qs & -> & ->). exists qs. split; [by eexists|done].
    + by eexists.
  - destruct Hi as [-> ->]. by exists [].
Qed.

(** C1, as the code has it: along every run of a connection, the
    requests leave the channel in the order they entered it, and the i-th
    [SentRequest] carries the counter value of i and the i-th request
    pushed.  When [New] has been called at most once more for the key of
    the connection, which attaches its inbound stream, the i-th
    [ReceivedResponse] carries the counter value of i and the response
    parsed against the i-th request popped, which is the i-th request
    pushed; and the [SentRequest] of that request, once made, is the i-th
    one and carries the same counter value.  Both counters are [int64]
    counters that start at zero and advance by one with each stored
    message, so the value for i is i itself below 2^63. *)
Theorem pipelining_fifo_matching (nf tf : Flow) (rs : ReaderStream)
    (sched : list Action) (c : Conn) (tr : list Event) :
  run (startConn nf tf rs) sched = Some (c, tr) →
  popped tr `prefix_of` pushed tr
  ∧ (∀ i id req, sent tr !! i = Some (id, req) →
       id = seqOf i ∧ pushed tr !! i = Some req)
  ∧ ((countNew sched ≤ 1)%nat →
     ∀ i id req, received tr !! i = Some (id, req) →
       id = seqOf i
       ∧ (Z.of_nat i < 2 ^ 63 → id = Z.of_nat i)
       ∧ popped tr !! i = Some req
       ∧ pushed tr !! i = Some req
       ∧ ∀ id' req',
           sent tr !! i = Some (id', req') → id' = id ∧ req' = req).
Proof.
  intros Hrun.
  pose proof (countNew_replaced _ _ _ _ _ _ Hrun) as Hone.
  apply outChan_reachable in Hrun as (Ho & Hc & Hi).
  apply outInv_trace in Ho as (ps & Hps & Hsent).
  assert (Hpp : popped tr `prefix_of` pushed tr).
  { unfold chanInv in Hc. rewrite Hc. by eexists. }
  assert (Hs : ∀ i id req, sent tr !! i = Some (id, req) →
                 id = seqOf i ∧ pushed tr !! i = Some req).
  { intros i id req. rewrite Hsent, numbered_lookup.
    destruct (ps !! i) as [r|] eqn:Hr; [|done]. intros [= <- <-].
    split; [done|]. by eapply prefix_lookup_Some. }
  split; [done|]. split; [done|].
  intros Hle. apply Hone, Hi, inInv_trace in Hle as (qs & Hqs & Hrecv).
  intros i id req. rewrite Hrecv, numbered_lookup.
  destruct (qs !! i) as [r|] eqn:Hr; [|done]. intros [= <- <-].
  assert (Hpop : popped tr !! i = Some r) by by eapply prefix_lookup_Some.
  assert (Hpush : pushed tr !! i = Some r) by by eapply prefix_lookup_Some.
  split_and!; try done.
  - by apply seqOf_small.
  - intros id' req' Hi'. apply Hs in Hi' as [-> Hi']. split; congruence.
Qed.
(** ** What [runOut] does in order, and the bound of the channel *)

Ltac local_goal := unfold outLocalInv, toPush; simpl; trace_simpl.

Lemma step_outLocal c tr a c' evs :
  outLocalInv c tr → step c a = Some (c', evs) → outLocalInv c' (tr ++ evs).
Proof.
  intros (Hb & Hcl & Hcap & Hlen) Hs.
  destruct c as [b opc oid ig old]. unfold toPush in Hb. simpl in *.
  destruct a as [now err|now err|i now err|nf tf rs now err| |]; simpl in Hs.
  - unfold stepOut in Hs; simpl in Hs.
    destruct (out b) as [h|]; [|done].
    destruct opc as [| e | req | req |]; simplify_eq.
    + unfold http.ReadRequest in Hs.
      destruct (readStream h) as [|[req|st bd|e] rest]; simplify_eq;
        local_goal; rewrite ?Hcl, ?Hb, ?app_nil_r; split_and!; by eauto.
    + local_goal. by rewrite app_nil_r in Hb.
    + unfold send in Hs.
      destruct (_ <? _)%nat eqn:Hlt; simplify_eq.
      apply Nat.ltb_lt in Hlt.
      local_goal. rewrite Hb, length_app. simpl. split_and!; try done. lia.
    + local_goal. by rewrite app_nil_r in Hb.
  - unfold stepIn in Hs; simpl in Hs.
    destruct (in_ b) as [h|]; [|done]. destruct ig as [[ipc iid]|]; [|done].
    simpl in Hs.
    destruct ipc as [| | req | e | resp |]; simplify_eq.
    + destruct (bufio.PeekEOF (readStream h)); simplify_eq; [by local_goal|].
      destruct (reqInProgress h); simplify_eq; by local_goal.
    + unfold recv in Hs.
      destruct (buf (requests b)) as [|x rest] eqn:Hbuf; simplify_eq.
      local_goal. simpl in Hlen. split_and!; try done. lia.
    + unfold http.ReadResponse in Hs.
      destruct (readStream h) as [|[rq|st bd|e] rest]; simplify_eq;
        by local_goal.
    + by local_goal.
    + by local_goal.
  - old_effect Hs.
    destruct Hts as (_ & _ & Hbuf & Hpu & Hbc & _ & Hcls & _).
    unfold outLocalInv, toPush. simpl.
    rewrite bodyClosed_app, pushed_app, closes_app, Hpu, Hbc, Hcls.
    rewrite !app_nil_r. split_and!; try done.
    rewrite Hbuf, length_app in Hlen. lia.
  - attach_cases Hs. by local_goal.
  - unfold markClosedIn in Hs; simpl in Hs.
    destruct (in_ b); simplify_eq. by local_goal.
  - unfold markClosedOut in Hs; simpl in Hs.
    destruct (out b); simplify_eq. by local_goal.
Qed.

Lemma outLocalInv_start nf tf rs : outLocalInv (startConn nf tf rs) [].
Proof. unfold outLocalInv, toPush. simpl. split_and!; try done. lia. Qed.

Lemma outLocalInv_reachable nf tf rs sched c tr :
  run (startConn nf tf rs) sched = Some (c, tr) → outLocalInv c tr.
Proof.
  intros Hrun.
  apply (run_invariant outLocalInv step_outLocal sched _ [] _ _
           (outLocalInv_start nf tf rs) Hrun).
Qed.

Lemma numbered_snd (l : list Request) : (numbered l).*2 = l.
Proof.
  apply list_eq. intros i.
  rewrite list_lookup_fmap, numbered_lookup. by destruct (l !! i).
Qed.

(** C4: when [runOut] has parsed a request, the step that parsed it
    closes its body ([req.Body.Close()], which reads and drops what is left
    of the body) and goes on to the push; along every run, the bodies
    closed so far are those of the requests pushed so far, followed by the
    one request about to be pushed, and the requests stored with
    [SentRequest] are the first of the pushed ones, in order: the body of a
    request is closed before its push, and its push is before its
    [SentRequest]. *)
Theorem body_closed_before_push (nf tf : Flow) (rs : ReaderStream)
    (sched : list Action) (c : Conn) (tr : list Event) :
  run (startConn nf tf rs) sched = Some (c, tr) →
  bodyClosed tr = pushed tr ++ toPush c
  ∧ (sent tr).*2 `prefix_of` pushed tr
  ∧ (∀ h req rest now err,
       out (bds c) = Some h → out_pc c = OutRead →
       http.ReadRequest (readStream h) = (Ok req, rest) →
       ∃ c', stepOut c now err = Some (c', [BodyClose req])
             ∧ out_pc c' = OutSend req
             ∧ requests (bds c') = requests (bds c))
  ∧ (∀ req now err c' evs,
       out_pc c = OutSend req → stepOut c now err = Some (c', evs) →
       evs = [ChanSend req] ∧ out_pc c' = OutStore req)
  ∧ (∀ req now err c' evs,
       out_pc c = OutStore req → stepOut c now err = Some (c', evs) →
       sent evs = [(out_reqID c, req)] ∧ pushed evs = []
       ∧ bodyClosed evs = []).
Proof.
  intros Hrun.
  pose proof (outLocalInv_reachable _ _ _ _ _ _ Hrun) as (Hb & _).
  pose proof (outChan_reachable _ _ _ _ _ _ Hrun) as (Ho & _).
  apply outInv_trace in Ho as (ps & Hps & Hsent).
  split; [done|]. split; [by rewrite Hsent, numbered_snd|].
  split_and!.
  - intros h req rest now err Hout Hpc Hread.
    unfold stepOut. rewrite Hout, Hpc, Hread. by eexists.
  - intros req now err c' evs Hpc Hs. unfold stepOut in Hs.
    rewrite Hpc in Hs. destruct (out (bds c)); [|done].
    destruct (send _ _); by simplify_eq.
  - intros req now err c' evs Hpc Hs. unfold stepOut in Hs.
    rewrite Hpc in Hs. destruct (out (bds c)); [|done].
    simplify_eq. by trace_simpl.
Qed.

(** Closes the cases of a step that leaves a full channel full. *)
Ltac still_blocked :=
  simpl; unfold stepOut, send; simpl;
  match goal with
  | Hout : out _ = Some _, Hcap : cap _ = _, Hfull : length _ = _ |- _ =>
      rewrite ?Hout, Hcap, Hfull
  end;
  trace_simpl;
  split_and!; [done | done | intros Hne; by destruct Hne].

(** Whether [runOut] can push after a step of [runIn]: by what the step
    popped. *)
Ltac popped_cases :=
  simpl; unfold stepOut, send; simpl;
  match goal with
  | Hout : out _ = Some _, Hcap : cap _ = _, Hfull : length _ = _,
    Hbuf : _ = popped ?evs ++ _ |- _ =>
      rewrite Hbuf, length_app in Hfull; rewrite ?Hout, Hcap;
      split; [done|];
      destruct (popped evs) as [|x l];
      [ simpl in Hfull; rewrite Hfull; split; [done|]; by intros []
      | split; [done|]; intros _; simpl in Hfull;
        match goal with
        | |- context [(?n <? 100)%nat] =>
            assert ((n <? 100)%nat = true) as -> by (apply Nat.ltb_lt; lia)
        end; by eexists ]
  end.

(** C9: the channel of a connection has capacity 100 and never holds
    more than 100 requests.  When it holds 100, [runOut] cannot push: it
    stays at the push, whatever else happens, as long as no step pops a
    request, and it can push again right after [runIn] has popped one.
    With fewer than 100 requests in the channel the push goes through. *)
Theorem channel_capacity_100 (nf tf : Flow) (rs : ReaderStream)
    (sched : list Action) (c : Conn) (tr : list Event) :
  run (startConn nf tf rs) sched = Some (c, tr) →
  cap (requests (bds c)) = 100%nat
  ∧ (length (buf (requests (bds c))) ≤ 100)%nat
  ∧ (∀ req now err,
       out_pc c = OutSend req →
       length (buf (requests (bds c))) = 100%nat →
       stepOut c now err = None
       ∧ ∀ a c' evs, step c a = Some (c', evs) →
           out_pc c' = OutSend req
           ∧ (popped evs = [] → stepOut c' now err = None)
           ∧ (popped evs ≠ [] → is_Some (stepOut c' now err)))
  ∧ (∀ req now err,
       out_pc c = OutSend req →
       (length (buf (requests (bds c))) < 100)%nat →
       ∃ c', stepOut c now err = Some (c', [ChanSend req])
             ∧ buf (requests (bds c')) = buf (requests (bds c)) ++ [req]).
Proof.
  intros Hrun.
  pose proof (outLocalInv_reachable _ _ _ _ _ _ Hrun) as (_ & _ & Hcap & Hlen).
  pose proof (outChan_reachable _ _ _ _ _ _ Hrun) as (([h Hout] & _) & _).
  split; [done|]. split; [done|]. split.
  - intros req now err Hpc Hfull.
    assert (Hblocked : stepOut c now err = None).
    { unfold stepOut, send. rewrite Hout, Hpc, Hcap, Hfull. done. }
    split; [done|]. intros a c' evs Hs.
    destruct c as [b opc oid ig old]; simpl in *. subst opc.
    destruct a as [now' err'|now' err'|i now' err'|nf' tf' rs' now' err'| |];
      simpl in Hs.
    + unfold stepOut, send in Hs; simpl in Hs.
      rewrite Hout, Hcap, Hfull in Hs. done.
    + in_effect Hs. destruct Hts as (_ & _ & Hbuf & _). by popped_cases.
    + old_effect Hs. destruct Hts as (_ & _ & Hbuf & _). by popped_cases.
    + attach_cases Hs. still_blocked.
    + closeIn_cases Hs. still_blocked.
    + unfold markClosedOut in Hs; simpl in Hs. rewrite Hout in Hs.
      simplify_eq. still_blocked.
  - intros req now err Hpc Hlt.
    unfold stepOut, send. rewrite Hout, Hpc, Hcap.
    apply Nat.ltb_lt in Hlt. rewrite Hlt. by eexists.
Qed.

(** ** The end of the outbound stream *)




(** C8: a parse error other than the end of input, on either stream,
    makes the reader drop the rest of what it can read
    ([DiscardBytesToFirstError]) and then go back to the head of its loop,
    never to its return; between the two it logs the error exactly when
    the [closed] flag of its stream is not set, and logs nothing when it
    is set. *)
Theorem malformed_message_recovery (c : Conn) (e : error)
    (now : Time) (err : option error) :
  (∀ h, out (bds c) = Some h →
     (∀ rest, out_pc c = OutRead →
        http.ReadRequest (readStream h) = (Err e, rest) →
        ∃ c', stepOut c now err = Some (c', [])
              ∧ out_pc c' = OutFailed e
              ∧ out (bds c')
                = Some (set_readStream h
                          (tcpreader.DiscardBytesToFirstError rest)))
     ∧ (out_pc c = OutFailed e →
        ∃ c' evs, stepOut c now err = Some (c', evs)
              ∧ out_pc c' = OutRead ∧ bds c' = bds c
              ∧ out_reqID c' = out_reqID c
              ∧ (closed h = true → evs = [])
              ∧ (closed h = false
                 → evs = [Println "Error reading stream" e])))
  ∧ (∀ h g, in_ (bds c) = Some h → inG c = Some g →
     (∀ req rest, in_pc g = InRead req →
        http.ReadResponse (readStream h) req = (Err e, rest) →
        ∃ c', stepIn c now err = Some (c', [])
              ∧ (in_pc <$> inG c') = Some (InFailed e)
              ∧ in_ (bds c')
                = Some (set_readStream h
                          (tcpreader.DiscardBytesToFirstError rest)))
     ∧ (in_pc g = InFailed e →
        ∃ c' evs, stepIn c now err = Some (c', evs)
              ∧ inG c' = Some {| in_pc := InPeek; in_reqID := in_reqID g |}
              ∧ bds c' = bds c
              ∧ (closed h = true → evs = [])
              ∧ (closed h = false
                 → evs = [Println "Error reading stream" e]))).
Proof.
  split.
  - intros h Hout. split.
    + intros rest Hpc Hread. unfold stepOut. rewrite Hout, Hpc, Hread.
      by eexists.
    + intros Hpc. unfold stepOut. rewrite Hout, Hpc.
      do 2 eexists. split; [done|]. simpl.
      split_and!; try done; by intros ->.
  - intros h g Hin Hg. split.
    + intros req rest Hpc Hread. unfold stepIn. rewrite Hin, Hg, Hpc, Hread.
      by eexists.
    + intros Hpc. unfold stepIn. rewrite Hin, Hg, Hpc.
      do 2 eexists. split; [done|]. simpl.
      split_and!; try done; by intros ->.
Qed.

(** ** Errors of the storage layer *)

Lemma existsb_storage_logIfErr msg err :
  existsb isStorageCall (logIfErr msg err) = false.
Proof. by destruct err. Qed.

Lemma existsb_storage_log_unless (b : bool) msg e :
  existsb isStorageCall (if b then [] else [Println msg e]) = false.
Proof. by destruct b. Qed.

Lemma stepIn_storage_error c now e c' evs :
  stepIn c now None = Some (c', evs) →
  ∃ msg, stepIn c now (Some e) = Some (c', evs ++ logAfterCall evs msg e).
Proof.
  intros Hs. unfold logAfterCall.
  destruct c as [b opc oid ig old].
  unfold stepIn in *; simpl in *.
  destruct (in_ b) as [h|]; [|done]. destruct ig as [[ipc iid]|]; [|done].
  simpl in *.
  destruct ipc as [| | req | e' | resp |]; simplify_eq.
  - destruct (bufio.PeekEOF (readStream h)); simplify_eq; [by exists ""|].
    destruct (reqInProgress h); simplify_eq; by exists "".
  - destruct (recv (requests b)) as [[req ch]|]; simplify_eq. by exists "".
  - destruct (http.ReadResponse (readStream h) req) as [[resp| |e'] rest];
      simplify_eq; try by exists "".
    rewrite existsb_storage_logIfErr, app_nil_r. by exists "".
  - rewrite existsb_storage_log_unless, app_nil_r. by exists "".
  - by eexists.
Qed.

Lemma step_storage_error c a e c' evs :
  step c (withErr a None) = Some (c', evs) →
  ∃ msg, step c (withErr a (Some e))
         = Some (c', evs ++ logAfterCall evs msg e).
Proof.
  intros Hs.
  destruct a as [now err|now err|i now err|nf tf rs now err| |]; simpl in *.
  - unfold logAfterCall. destruct c as [b opc oid ig old].
    unfold stepOut in *; simpl in *.
    destruct (out b) as [h|]; [|done].
    destruct opc as [| e' | req | req |]; simplify_eq.
    + destruct (http.ReadRequest (readStream h)) as [[req| |e'] rest];
        simplify_eq; first [by exists "" | by eexists].
    + rewrite existsb_storage_log_unless, app_nil_r. by exists "".
    + destruct (send (requests b) req); simplify_eq. by exists "".
    + by eexists.
  - by apply stepIn_storage_error.
  - unfold stepOld in *. destruct (replaced c !! i) as [t|]; [|done].
    destruct (stepIn _ now None) as [[c1 evs1]|] eqn:H1; [|done].
    apply (stepIn_storage_error _ _ e) in H1 as [msg ->].
    destruct (in_ (bds c1)), (inG c1); simplify_eq. by exists msg.
  - unfold logAfterCall. unfold attach in *.
    case_decide; simplify_eq. by eexists.
  - unfold logAfterCall. rewrite Hs.
    destruct (existsb isStorageCall evs) eqn:He.
    + unfold markClosedIn in Hs; simpl in Hs.
      destruct (in_ (bds c)); by simplify_eq.
    + rewrite app_nil_r. by exists "".
  - unfold logAfterCall. rewrite Hs.
    destruct (existsb isStorageCall evs) eqn:He.
    + unfold markClosedOut in Hs; simpl in Hs.
      destruct (out (bds c)); by simplify_eq.
    + rewrite app_nil_r. by exists "".
Qed.

(** C3, as the code has it: an error returned by [OpenTCPConnection],
    [CloseTCPConnection], [SentRequest] or [ReceivedResponse] changes
    nothing but the log: the step that made the call ends in the same
    state as without the error, with the same events followed by one log
    line carrying the error; [New] as a whole behaves the same way.  An
    error returned by [IncomingTCPPacket] or [OutgoingTCPPacket] is raised
    as a panic by [LogPacketSize] and is not logged. *)
Theorem storage_error_logged_or_raised (e : error) :
  (∀ c a c' evs,
     step c (withErr a None) = Some (c', evs) →
     ∃ msg, step c (withErr a (Some e))
            = Some (c', evs ++ logAfterCall evs msg e))
  ∧ (∀ h nf tf rs now h' evs go,
       New h nf tf rs now None = (h', evs, go) →
       New h nf tf rs now (Some e)
       = (h', evs ++ logAfterCall evs "Error storing connection" e, go))
  ∧ (∀ h packet evs o,
       LogPacketSize h packet None = (evs, o) →
       LogPacketSize h packet (Some e)
       = (evs, if existsb isStorageCall evs
               then Panicked (PanicError e) else o)).
Proof.
  split; [intros c a c' evs; apply step_storage_error|]. split.
  - intros h nf tf rs now h' evs go. unfold New, logAfterCall.
    destruct (bidiStreams h !! connKey nf tf); intros; by simplify_eq.
  - intros h packet evs o. unfold LogPacketSize.
    destruct (NetworkLayer packet); [|intros; by simplify_eq].
    destruct (TransportLayer packet); [|intros; by simplify_eq].
    destruct (bidiStreams h !! _) as [b|]; [|intros; by simplify_eq].
    destruct (in_ b) as [bin|], (out b); try (intros; by simplify_eq).
    destruct (LayerIPv4 packet), (LayerTCP packet);
      try (intros; by simplify_eq).
    case_decide; intros; by simplify_eq.
Qed.

Lemma exRun : run exStart exSchedule = Some (exEnd, exTrace).
Proof. vm_compute. reflexivity. Qed.

Lemma exFullRun : run exFullStart exFullSchedule = Some (exFull, exFullTrace).
Proof. vm_compute. reflexivity. Qed.

Lemma exPartialRun :
  run exPartialStart exPartialSchedule = Some (exPartial, exPartialTrace).
Proof. vm_compute. reflexivity. Qed.

Lemma exFactory_established :
  established exFactory exKey exInStream (newTCPStream exNet exTcp []).
Proof. eexists. vm_compute. split_and!; reflexivity. Qed.

(** After a further [New] for the key the goroutine [runIn] of the new
    stream counts from zero again: the response to the second request is
    stored under 0, its request under 1. *)
Lemma further_New_restarts_the_response_counter :
  run exStart exReplaceSchedule = Some (exReplaced, exReplacedTrace)
  ∧ countNew exReplaceSchedule = 2%nat
  ∧ pushed exReplacedTrace !! 1%nat = Some GETb
  ∧ sent exReplacedTrace !! 1%nat = Some (1, GETb)
  ∧ received exReplacedTrace !! 1%nat = Some (0, GETb).
Proof. split_and!; vm_compute; reflexivity. Qed.

Lemma pipelining_fifo_matching_witness :
  received exTrace !! 1%nat = Some (1, GETb)
  ∧ pushed exTrace !! 1%nat = Some GETb
  ∧ sent exTrace !! 1%nat = Some (1, GETb)
  ∧ popped exTrace `prefix_of` pushed exTrace.
Proof.
  destruct (pipelining_fifo_matching exNet exTcp _ exSchedule exEnd exTrace
              exRun) as (Hpre & Hsent & Hrecv).
  assert (Hr : received exTrace !! 1%nat = Some (1, GETb))
    by (vm_compute; reflexivity).
  assert (Hs : sent exTrace !! 1%nat = Some (1, GETb))
    by (vm_compute; reflexivity).
  assert (Hone : (countNew exSchedule ≤ 1)%nat) by (vm_compute; lia).
  destruct (Hrecv Hone 1%nat 1 GETb Hr) as (_ & _ & _ & Hp & _).
  split; [exact Hr|]. split; [exact Hp|]. split; [exact Hs|]. exact Hpre.
Defined.

Lemma New_register_then_attach_witness :
  bidiStreams exHalfOpen !! exKey
  = Some {| key := exKey; in_ := None;
            out := Some (newTCPStream exNet exTcp []);
            requests := make_chan 100 |}
  ∧ (New NewStreamFactory exNet exTcp [] 0 None).1.2 = []
  ∧ opens (New exHalfOpen (Reverse exNet) (Reverse exTcp) [] 1 None).1.2
    = [(exKey, 1)]
  ∧ bidiStreams exFactory !! exKey
    = Some {| key := exKey; in_ := Some exInStream;
              out := Some (newTCPStream exNet exTcp []);
              requests := make_chan 100 |}.
Proof.
  destruct (New_register_then_attach NewStreamFactory exNet exTcp [] 0 None)
    as (_ & Hfresh & _ & Htwo).
  destruct (Hfresh eq_refl) as (Hreg & Hevs & _).
  destruct (Htwo eq_refl [] 1 None) as (Hboth & _ & _).
  destruct (New_register_then_attach exHalfOpen (Reverse exNet) (Reverse exTcp)
              [] 1 None) as (_ & _ & Hknown & _).
  destruct (Hknown _ Hreg) as (_ & _ & Hopen & _).
  split; [exact Hreg|]. split; [exact Hevs|]. split; [exact Hopen|].
  exact Hboth.
Defined.

Lemma LogPacketSize_contract_witness :
  LogPacketSize exHalfOpen exPacket None = ([], Returned)
  ∧ (LogPacketSize exFactory exPacket None).1 = [IncomingTCPPacket exKey 20].
Proof.
  destruct (LogPacketSize_contract exHalfOpen exPacket None
              (Reverse exNet) (Reverse exTcp) eq_refl eq_refl) as [Hign _].
  destruct (LogPacketSize_contract exFactory exPacket None
              (Reverse exNet) (Reverse exTcp) eq_refl eq_refl) as [_ Hest].
  split.
  - apply Hign. right. eexists. vm_compute. split; [reflexivity|].
    left; reflexivity.
  - destruct (Hest exInStream (newTCPStream exNet exTcp [])
                {| Length := 60; IHL := 5 |} {| DataOffset := 5 |}
                exFactory_established eq_refl eq_refl) as [Hev Hexact].
    assert (Hn : (60 - 4 * 5 - 4 * 5) mod 2 ^ 16 = 60 - 4 * 5 - 4 * 5).
    { apply Hexact; simpl; lia. }
    exact Hev.
Defined.

Lemma LogPacketSize_nil_layer_witness :
  LogPacketSize exFactory exPacketNoIPv4 None = ([], Panicked NilDereference)
  ∧ (LogPacketSize exFactory exPacket None).2 ≠ Panicked NilDereference
  ∧ (LogPacketSize exHalfOpen exPacketNoIPv4 None).2 = Returned.
Proof.
  destruct (LogPacketSize_nil_layer exFactory exPacketNoIPv4 None
              (Reverse exNet) (Reverse exTcp) eq_refl eq_refl) as [Hnil _].
  destruct (LogPacketSize_nil_layer exFactory exPacket None
              (Reverse exNet) (Reverse exTcp) eq_refl eq_refl) as [Hok _].
  destruct (LogPacketSize_nil_layer exHalfOpen exPacketNoIPv4 None
              (Reverse exNet) (Reverse exTcp) eq_refl eq_refl) as [_ Hhalf].
  split; [|split].
  - apply (Hnil _ _ exFactory_established). left. reflexivity.
  - apply (Hok _ _ exFactory_established); simpl; eauto.
  - apply Hhalf. right. eexists. vm_compute. split; [reflexivity|].
    left; reflexivity.
Defined.

(** With the connection established and the storage layer failing,
    [LogPacketSize] makes the call and panics with the error: the error of
    [IncomingTCPPacket] is fatal, and it is not logged. *)
Lemma LogPacketSize_storage_error_is_fatal :
  LogPacketSize exFactory exPacket None
  = ([IncomingTCPPacket exKey 20], Returned)
  ∧ LogPacketSize exFactory exPacket (Some "disk full")
    = ([IncomingTCPPacket exKey 20], Panicked (PanicError "disk full")).
Proof. split; vm_compute; reflexivity. Qed.

Lemma storage_error_logged_or_raised_witness :
  (∃ c' msg, step exStore (RunOut 3 None)
             = Some (c', [SentRequest exKey 0 3 GETa])
             ∧ step exStore (RunOut 3 (Some "disk full"))
               = Some (c', [SentRequest exKey 0 3 GETa;
                            Println msg "disk full"]))
  ∧ New exHalfOpen (Reverse exNet) (Reverse exTcp) [] 1 (Some "disk full")
    = (exFactory,
       [OpenTCPConnection exKey 1;
        Println "Error storing connection" "disk full"], GoRunIn)
  ∧ LogPacketSize exFactory exPacket (Some "disk full")
    = ([IncomingTCPPacket exKey 20], Panicked (PanicError "disk full")).
Proof.
  destruct (storage_error_logged_or_raised "disk full")
    as (Hstep & Hnew & Hlog).
  split; [|split].
  - destruct (Hstep exStore (RunOut 3 None) _ _ eq_refl) as [msg Hs].
    eexists _, msg. split; [reflexivity|exact Hs].
  - exact (Hnew exHalfOpen (Reverse exNet) (Reverse exTcp) [] 1 _ _ _ eq_refl).
  - exact (Hlog exFactory exPacket _ _ eq_refl).
Defined.

Lemma body_closed_before_push_witness :
  bodyClosed exTrace = [GETa; GETb]
  ∧ (sent exTrace).*2 `prefix_of` pushed exTrace
  ∧ ∃ c', stepOut exStart 1 None = Some (c', [BodyClose GETa])
          ∧ out_pc c' = OutSend GETa.
Proof.
  destruct (body_closed_before_push exNet exTcp _ exSchedule exEnd exTrace
              exRun) as (Hb & Hpre & _).
  destruct (body_closed_before_push exNet exTcp
              [SegRequest GETa; SegRequest GETb] [] exStart [] eq_refl)
    as (_ & _ & Hparse & Hsend & Hstore).
  destruct (Hparse exOutStream GETa [SegRequest GETb] 1 None
              eq_refl eq_refl eq_refl) as (c' & Hs & Hpc & _).
  split; [exact Hb|]. split; [exact Hpre|]. exists c'. by split.
Defined.

Lemma channel_capacity_100_witness :
  length (buf (requests (bds exFull))) = 100%nat
  ∧ stepOut exFull 0 None = None.
Proof.
  destruct (channel_capacity_100 exNet exTcp _ exFullSchedule exFull
              exFullTrace exFullRun) as (_ & _ & Hfull & _).
  destruct (Hfull GETa 0 None eq_refl eq_refl) as [Hblocked _].
  split; [reflexivity|exact Hblocked].
Defined.


Lemma malformed_message_recovery_witness :
  (∃ c', stepOut exPartial 4 None = Some (c', [])
         ∧ out_pc c' = OutFailed "unexpected EOF")
  ∧ (∃ c', stepOut exFailed 5 None
           = Some (c', [Println "Error reading stream" "unexpected EOF"])
           ∧ out_pc c' = OutRead)
  ∧ (∃ c', stepOut exFailedClosed 5 None = Some (c', [])
           ∧ out_pc c' = OutRead)
  ∧ (∃ c', stepIn exBadIn 7 None = Some (c', [])
           ∧ (in_pc <$> inG c') = Some (InFailed "malformed HTTP response"))
  ∧ (∃ c', stepIn exBadInFailed 8 None
           = Some (c', [Println "Error reading stream"
                          "malformed HTTP response"])
           ∧ (in_pc <$> inG c') = Some InPeek).
Proof.
  destruct (malformed_message_recovery exPartial "unexpected EOF" 4 None)
    as [Hout _].
  destruct (malformed_message_recovery exFailed "unexpected EOF" 5 None)
    as [Hopen _].
  destruct (malformed_message_recovery exFailedClosed "unexpected EOF" 5 None)
    as [Hshut _].
  destruct (malformed_message_recovery exBadIn "malformed HTTP response" 7 None)
    as [_ Hin].
  destruct (malformed_message_recovery exBadInFailed "malformed HTTP response"
              8 None) as [_ Hinf].
  split_and!.
  - destruct (Hout _ eq_refl) as [Hread _].
    destruct (Hread [] eq_refl eq_refl) as (c' & Hs & Hpc & _).
    exists c'. by split.
  - destruct (Hopen _ eq_refl) as [_ Hlog].
    destruct (Hlog eq_refl) as (c' & evs & Hs & Hpc & _ & _ & _ & Hev).
    exists c'. rewrite <- (Hev eq_refl). by split.
  - destruct (Hshut _ eq_refl) as [_ Hlog].
    destruct (Hlog eq_refl) as (c' & evs & Hs & Hpc & _ & _ & Hev & _).
    exists c'. rewrite <- (Hev eq_refl). by split.
  - destruct (Hin _ _ eq_refl eq_refl) as [Hread _].
    destruct (Hread GETa [] eq_refl eq_refl) as (c' & Hs & Hpc & _).
    exists c'. by split.
  - destruct (Hinf _ _ eq_refl eq_refl) as [_ Hlog].
    destruct (Hlog eq_refl) as (c' & evs & Hs & Hg & _ & _ & Hev).
    exists c'. rewrite <- (Hev eq_refl). split; [exact Hs|].
    by rewrite Hg.
Defined.

(** ** More on the runs of a connection *)

(** All the cases of a step, the connection taken apart first. *)
Ltac step_cases c a Hs :=
  destruct c as [?b ?opc ?oid ?ig ?old]; simpl in *;
  destruct a as [?now ?err|?now ?err|?i ?now ?err|?nf ?tf ?rs ?now ?err| |];
  simpl in Hs;
  [ out_cases Hs | in_cases Hs | old_effect Hs | attach_cases Hs
  | closeIn_cases Hs | closeOut_cases Hs ].

Lemma sum_list_with_insert {A} (f : A → nat) (l : list A) i x y :
  l !! i = Some x →
  (sum_list_with f (<[i := y]> l) + f x = sum_list_with f l + f y)%nat.
Proof.
  revert i. induction l as [|z l IH]; intros [|i] Hl; simplify_eq/=; [lia|].
  specialize (IH _ Hl). lia.
Qed.

Lemma step_keyInv k c tr a c' evs :
  keyInv k c tr → step c a = Some (c', evs) → keyInv k c' (tr ++ evs).
Proof.
  intros (Hk & Ho & Hi & Hold & Hall) Hs. unfold keyInv.
  rewrite keys_app, Forall_app.
  destruct c as [b opc oid ig old]; simpl in *.
  destruct a as [now err|now err|i now err|nf tf rs now err| |];
    simpl in Hs.
  - out_cases Hs;
      rewrite ?keys_cons, ?keys_logIfErr, ?keys_log_unless; simpl;
      split_and!;
      first [ done
            | by (intros ? [= <-]; simpl; eauto)
            | by (intros ? Heq; apply Ho; congruence)
            | by (repeat constructor; eauto) ].
  - in_effect Hs.
    destruct Hts as (Hbk & _ & _ & _ & _ & _ & _ & _ & Hkeys & _).
    simpl in *. split_and!; try done.
    + intros ? [= <-]. rewrite Hbk. by apply Hi.
    + eapply Forall_impl; [exact Hkeys|]. intros ? ->. by apply Hi.
  - old_effect Hs.
    destruct Hts as (Hbk & _ & _ & _ & _ & _ & _ & _ & Hkeys & _).
    assert (Ht : bidikey (task_stream t) = k)
      by apply (Forall_lookup_1 _ _ _ _ Hold Hlk).
    split_and!; try done.
    + apply Forall_insert; [done|]. by rewrite Hbk.
    + eapply Forall_impl; [exact Hkeys|]. by intros ? ->.
  - attach_cases Hs. rewrite keys_cons, keys_logIfErr. simpl.
    split_and!; try done.
    + by intros ? [= <-].
    + destruct (in_ b) as [h|], ig as [g|]; try done.
      apply Forall_app. split; [done|]. repeat constructor. by apply Hi.
    + by repeat constructor.
  - closeIn_cases Hs. simpl. split_and!; try done.
    intros ? [= <-]. simpl. by apply Hi.
  - closeOut_cases Hs. simpl. split_and!; try done.
    intros ? [= <-]. simpl. by apply Ho.
Qed.

Lemma keyInv_reachable nf tf rs sched c tr :
  run (startConn nf tf rs) sched = Some (c, tr) →
  keyInv (connKey nf tf) c tr.
Proof.
  intros Hrun.
  assert (H0 : keyInv (connKey nf tf) (startConn nf tf rs) []).
  { unfold keyInv; simpl.
    split_and!; first [done | by intros h [= <-] | constructor]. }
  apply (run_invariant (keyInv (connKey nf tf))
           (step_keyInv (connKey nf tf)) sched _ [] _ _ H0 Hrun).
Qed.

(** X1: every call into the storage layer made for a connection, by [New], by
    [runOut] or by [runIn], carries the key of the connection. *)
Theorem storage_calls_carry_the_key (nf tf : Flow) (rs : ReaderStream)
    (sched : list Action) (c : Conn) (tr : list Event) :
  run (startConn nf tf rs) sched = Some (c, tr) →
  Forall (fun k => k = connKey nf tf) (keys tr)
  ∧ key (bds c) = connKey nf tf.
Proof.
  intros Hrun.
  by pose proof (keyInv_reachable _ _ _ _ _ _ Hrun) as (Hk & _ & _ & _ & Hall).
Qed.

Lemma tasks_length c : (length (tasks c) ≤ length (replaced c) + 1)%nat.
Proof.
  unfold tasks.
  destruct (in_ (bds c)), (inG c); rewrite ?length_app; simpl; lia.
Qed.

Lemma pending_le (l : list InTask) :
  (sum_list_with pending l ≤ length l)%nat.
Proof.
  induction l as [|t l IH]; simpl; [lia|].
  unfold pending at 1. destruct (reqInProgress _); lia.
Qed.

Lemma step_pending c tr a c' evs :
  pendingInv c tr → step c a = Some (c', evs) → pendingInv c' (tr ++ evs).
Proof.
  intros [Hok Hlen] Hs. unfold pendingInv.
  rewrite popped_app, received_app, !length_app.
  destruct c as [b opc oid ig old]; unfold tasks in *; simpl in *.
  destruct a as [now err|now err|i now err|nf tf rs now err| |];
    simpl in Hs.
  - out_cases Hs; trace_simpl; simpl; split; first [done | lia].
  - in_effect Hs. rewrite Hin in *.
    destruct Hts as (_ & _ & _ & _ & _ & _ & _ & _ & _ & _ & Hstep & _).
    apply Forall_app in Hok as [Hok1 Hok2].
    rewrite Forall_singleton in Hok2.
    destruct (Hstep Hok2) as [Hok' Hp].
    rewrite sum_list_with_app in *. simpl in *.
    split; [|lia]. apply Forall_app. split; [done|]. by constructor.
  - old_effect Hs.
    destruct Hts as (_ & _ & _ & _ & _ & _ & _ & _ & _ & _ & Hstep & _).
    pose proof (sum_list_with_insert pending old i t t' Hlk) as Hsum.
    destruct (in_ b) as [h|], ig as [g|].
    all: rewrite ?sum_list_with_app in *; simpl in *.
    all: rewrite ?Forall_app in *.
    all: assert (Ht : taskOK t)
           by (eapply Forall_lookup_1; [|exact Hlk]; tauto).
    all: destruct (Hstep Ht) as [Ht' Hp].
    all: split; [|lia].
    all: try (split; [|tauto]).
    all: apply Forall_insert; tauto.
  - attach_cases Hs. trace_simpl. simpl.
    destruct (in_ b) as [h|], ig as [g|].
    all: rewrite ?sum_list_with_app in *; simpl in *.
    all: split; [|unfold pending in *; simpl in *; lia].
    all: rewrite ?Forall_app in *; split_and!; try tauto.
    all: by repeat constructor.
  - closeIn_cases Hs. simpl. destruct ig as [g|]; [|by split; [|lia]].
    rewrite ?sum_list_with_app, ?Forall_app in *. simpl in *.
    unfold pending in *. simpl in *. split; [|lia].
    split; [tauto|]. destruct Hok as [_ Hok].
    rewrite Forall_singleton in Hok. by constructor.
  - closeOut_cases Hs. simpl. split; [done|lia].
Qed.

Lemma pendingInv_reachable nf tf rs sched c tr :
  run (startConn nf tf rs) sched = Some (c, tr) → pendingInv c tr.
Proof.
  intros Hrun.
  assert (H0 : pendingInv (startConn nf tf rs) []) by (by split).
  apply (run_invariant pendingInv step_pending sched _ [] _ _ H0 Hrun).
Qed.

Lemma outInv_counts c tr :
  outInv c tr →
  (length (sent tr) ≤ length (pushed tr) ≤ length (sent tr) + 1)%nat.
Proof.
  intros (_ & _ & Ho).
  destruct (out_pc c); try (rewrite Ho, numbered_length; lia).
  destruct Ho as (ps & -> & ->). rewrite numbered_length, length_app.
  simpl. lia.
Qed.

(** X2: how far the readers can be apart: [runOut] has pushed at most one
    request it has not stored yet, each goroutine [runIn] has popped at
    most one request it has not stored a response for, and the pushes are
    ahead of the pops by what the channel holds, at most 100.  So there
    are never more responses stored than requests pushed; and with one
    goroutine [runIn], which is the case when [New] has been called once
    more for the key, never more than 101 requests stored without a
    response.  There are as many goroutines [runIn] as further calls of
    [New] for the key. *)
Theorem readers_stay_in_step (nf tf : Flow) (rs : ReaderStream)
    (sched : list Action) (c : Conn) (tr : list Event) :
  run (startConn nf tf rs) sched = Some (c, tr) →
  (length (sent tr) ≤ length (pushed tr) ≤ length (sent tr) + 1)%nat
  ∧ (length (received tr) ≤ length (popped tr)
     ≤ length (received tr) + length (tasks c))%nat
  ∧ (length (popped tr) ≤ length (pushed tr)
     ≤ length (popped tr) + 100)%nat
  ∧ (length (received tr) ≤ length (sent tr) + 1)%nat
  ∧ (length (sent tr) ≤ length (received tr) + length (tasks c) + 100)%nat
  ∧ length (tasks c) = countNew sched
  ∧ (length (tasks c) ≤ length (replaced c) + 1)%nat.
Proof.
  intros Hrun.
  assert (Hwf : wfIn (startConn nf tf rs)) by (by intros _).
  destruct (run_countNew _ _ _ _ Hwf Hrun) as [_ Hnew]. simpl in Hnew.
  pose proof (outChan_reachable _ _ _ _ _ _ Hrun) as (Ho & Hc & _).
  apply outInv_counts in Ho. unfold chanInv in Hc.
  apply (f_equal length) in Hc. rewrite length_app in Hc.
  pose proof (pendingInv_reachable _ _ _ _ _ _ Hrun) as [_ Hp].
  pose proof (pending_le (tasks c)) as Hle.
  pose proof (tasks_length c) as Ht.
  pose proof (outLocalInv_reachable _ _ _ _ _ _ Hrun) as (_ & _ & _ & Hlen).
  lia.
Qed.

Lemma step_openInv c tr a c' evs :
  openInv c tr → step c a = Some (c', evs) → openInv c' (tr ++ evs).
Proof.
  intros (Hkey & Hlen & Hnone) Hs. unfold openInv.
  rewrite opens_app, popped_app, received_app, Forall_app, length_app.
  destruct c as [b opc oid ig old]; unfold tasks in *; simpl in *.
  destruct a as [now err|now err|i now err|nf tf rs now err| |];
    simpl in Hs.
  - out_cases Hs; simpl;
      rewrite ?opens_cons, ?opens_logIfErr, ?opens_log_unless;
      trace_simpl; simpl; split_and!; first [done | by constructor | lia].
  - in_effect Hs. rewrite Hin in *.
    destruct Hts as (_ & _ & _ & _ & _ & _ & _ & Hop & _).
    rewrite Hop, !length_app in *. simpl in *.
    split_and!;
      first [done | by constructor | lia | intros Hnil; by destruct old].
  - old_effect Hs.
    destruct Hts as (_ & _ & _ & _ & _ & _ & _ & Hop & _).
    rewrite Hop. simpl. split_and!; try done; try by constructor.
    + destruct (in_ b), ig; rewrite ?length_app, ?length_insert in *; lia.
    + intros Hnil.
      assert (Hins : <[i := t']> old = [])
        by (destruct (in_ b), ig; try done; by destruct (<[i := t']> old)).
      apply (f_equal length) in Hins. rewrite length_insert in Hins.
      by destruct old.
  - attach_cases Hs. rewrite opens_cons, opens_logIfErr. simpl.
    split_and!; try done.
    + by repeat constructor.
    + rewrite length_app, Hlen. simpl. lia.
    + intros Hnil. by destruct (match in_ b with Some _ => _ | None => _ end).
  - closeIn_cases Hs. simpl.
    destruct ig as [g|]; rewrite ?length_app, ?app_nil_r in *; simpl in *;
      split_and!;
      first [done | by constructor | lia | intros Hnil; by destruct old].
  - closeOut_cases Hs. simpl. rewrite ?app_nil_r.
    split_and!; first [done | by constructor | lia].
Qed.

(** X3: [OpenTCPConnection] is called with the key of the connection, once
    for each further [New] for the key, which is once for each goroutine
    [runIn] started; no request is popped and no response stored before
    the first of these calls; and as long as [New] has replaced no
    inbound stream the call has been made at most once. *)
Theorem no_response_before_open (nf tf : Flow) (rs : ReaderStream)
    (sched : list Action) (c : Conn) (tr : list Event) :
  run (startConn nf tf rs) sched = Some (c, tr) →
  (opens tr = [] → popped tr = [] ∧ received tr = [])
  ∧ Forall (fun o => o.1 = connKey nf tf) (opens tr)
  ∧ length (opens tr) = countNew sched
  ∧ length (opens tr) = length (tasks c)
  ∧ (replaced c = [] →
     opens tr = [] ∨ ∃ t, opens tr = [(connKey nf tf, t)]).
Proof.
  intros Hrun.
  assert (Hwf : wfIn (startConn nf tf rs)) by (by intros _).
  destruct (run_countNew _ _ _ _ Hwf Hrun) as [_ Hnew]. simpl in Hnew.
  assert (H0 : openInv (startConn nf tf rs) []) by (by split_and!).
  pose proof (run_invariant openInv step_openInv sched _ [] _ _ H0 Hrun)
    as (Hkey & Hlen & Hnone).
  pose proof (keyInv_reachable _ _ _ _ _ _ Hrun) as (Hk & _).
  simpl in *. rewrite Hk in Hkey. split_and!; try done.
  - intros Hop. clear Hnew. rewrite Hop in Hlen. apply Hnone.
    by destruct (tasks c).
  - by rewrite Hlen.
  - intros Hnil. pose proof (tasks_length c) as Hle.
    rewrite Hnil, <- Hlen in Hle.
    destruct (opens tr) as [|[k t] [|o l]]; simpl in Hle; [by left| |lia].
    right. exists t. rewrite Forall_singleton in Hkey. simpl in Hkey.
    by rewrite Hkey.
Qed.

Lemma bothClosed_step c a c' evs :
  bothClosed c → oldClosed c → isNewIn a = false →
  step c a = Some (c', evs) →
  bothClosed c' ∧ oldClosed c' ∧ readErrors evs = [].
Proof.
  intros [Ho Hi] Hold Hnew Hs. unfold bothClosed, oldClosed in *.
  destruct c as [b opc oid ig old]; simpl in *.
  destruct a as [now err|now err|i now err|nf tf rs now err| |];
    simpl in Hs; try done.
  - out_cases Hs; simpl in *; simplify_eq.
    all: rewrite ?Hout, ?Ho; simpl; rewrite ?Ho; try done.
    all: by destruct err.
  - in_effect Hs. rewrite Hin in Hi. simpl in *. injection Hi as Hi.
    destruct Hts as (_ & Hcl & _ & _ & _ & _ & _ & _ & _ & Hre & _).
    simpl in *. rewrite Hcl, Hi. split_and!; try done. by apply Hre.
  - old_effect Hs.
    destruct Hts as (_ & Hcl & _ & _ & _ & _ & _ & _ & _ & Hre & _).
    assert (Ht : closed (task_stream t) = true)
      by apply (Forall_lookup_1 _ _ _ _ Hold Hlk).
    split_and!; try done.
    + apply Forall_insert; [done|]. by rewrite Hcl.
    + by apply Hre.
  - closeIn_cases Hs. by simpl.
  - closeOut_cases Hs. by simpl.
Qed.

(** X4: once the [closed] flag is set on both streams of a connection and
    on the streams that were replaced as its inbound stream, the flags
    stay set and no parse error of the connection is logged any more,
    whatever the readers still find on their streams, as long as [New]
    attaches no further stream. *)
Theorem no_read_error_logged_after_shutdown (c : Conn)
    (sched : list Action) (c' : Conn) (tr : list Event) :
  bothClosed c → oldClosed c →
  Forall (fun a => isNewIn a = false) sched →
  run c sched = Some (c', tr) →
  readErrors tr = [] ∧ bothClosed c' ∧ oldClosed c'.
Proof.
  revert c tr.
  induction sched as [|a sched IH]; intros c tr Hc Hold Hnew Hrun;
    simpl in Hrun.
  - by simplify_eq.
  - destruct (step c a) as [[c1 evs]|] eqn:Hs; [|done].
    destruct (run c1 sched) as [[c2 tr2]|] eqn:Hr; [|done]. simplify_eq.
    apply Forall_cons in Hnew as [Ha Hnew].
    destruct (bothClosed_step _ _ _ _ Hc Hold Ha Hs) as (Hc1 & Hold1 & Hevs).
    destruct (IH _ _ Hc1 Hold1 Hnew Hr) as (Htr & Hc2 & Hold2).
    by rewrite readErrors_app, Hevs, Htr.
Qed.

Lemma step_outFuel c a c' evs :
  step c a = Some (c', evs) →
  ((if isRunOut a then 1 else 0) + outFuel c' ≤ outFuel c)%nat.
Proof.
  intros Hs. unfold outFuel.
  step_cases c a Hs; simpl; rewrite ?Hout, ?Hrs; simpl; lia.
Qed.

Lemma step_inFuel c a c' evs :
  step c a = Some (c', evs) →
  ((if isRunIn a || isRunOld a then 1 else 0) + inFuel c' + oldFuel c'
   ≤ inFuel c + oldFuel c + attachFuel [a])%nat.
Proof.
  intros Hs. unfold inFuel, oldFuel, attachFuel.
  destruct c as [b opc oid ig old]; simpl in *.
  destruct a as [now err|now err|i now err|nf tf rs now err| |];
    simpl in Hs.
  - out_cases Hs; simpl; lia.
  - in_effect Hs. rewrite Hin.
    destruct Hts as (_ & _ & _ & _ & _ & _ & _ & _ & _ & _ & _ & Hfuel).
    unfold taskFuel in *. simpl in *. lia.
  - old_effect Hs.
    destruct Hts as (_ & _ & _ & _ & _ & _ & _ & _ & _ & _ & _ & Hfuel).
    pose proof (sum_list_with_insert
                  (fun t => taskFuel (task_stream t) (task_locals t))
                  old i t t' Hlk) as Hsum.
    simpl in *. lia.
  - attach_cases Hs. simpl.
    destruct (in_ b) as [h|], ig as [g|];
      rewrite ?sum_list_with_app; unfold taskFuel; simpl; lia.
  - closeIn_cases Hs. simpl. lia.
  - closeOut_cases Hs. simpl. lia.
Qed.

Lemma run_outFuel c sched c' tr :
  run c sched = Some (c', tr) →
  (countOut sched + outFuel c' ≤ outFuel c)%nat.
Proof.
  revert c tr. induction sched as [|a sched IH]; intros c tr Hrun;
    simpl in Hrun.
  - simplify_eq. unfold countOut. simpl. lia.
  - destruct (step c a) as [[c1 evs]|] eqn:Hs; [|done].
    destruct (run c1 sched) as [[c2 tr2]|] eqn:Hr; [|done]. simplify_eq.
    pose proof (step_outFuel _ _ _ _ Hs) as H1.
    pose proof (IH _ _ Hr) as H2.
    unfold countOut in *. rewrite filter_cons.
    destruct (isRunOut a); case_decide; try done; simpl; lia.
Qed.

Lemma run_inFuel c sched c' tr :
  run c sched = Some (c', tr) →
  (countIn sched + countOld sched + inFuel c' + oldFuel c'
   ≤ inFuel c + oldFuel c + attachFuel sched)%nat.
Proof.
  revert c tr. induction sched as [|a sched IH]; intros c tr Hrun;
    simpl in Hrun.
  - simplify_eq. unfold countIn, countOld, attachFuel. simpl. lia.
  - destruct (step c a) as [[c1 evs]|] eqn:Hs; [|done].
    destruct (run c1 sched) as [[c2 tr2]|] eqn:Hr; [|done]. simplify_eq.
    pose proof (step_inFuel _ _ _ _ Hs) as H1.
    pose proof (IH _ _ Hr) as H2.
    unfold countIn, countOld, attachFuel in *. rewrite !filter_cons.
    simpl in *.
    destruct a; simpl in *; repeat case_decide; try done; simpl; lia.
Qed.

Lemma step_inFuel_alone c a c' evs :
  isNewIn a = false → step c a = Some (c', evs) →
  ((if isRunIn a then 1 else 0) + inFuel c' ≤ inFuel c)%nat.
Proof.
  intros Hnew Hs. unfold inFuel.
  destruct c as [b opc oid ig old]; simpl in *.
  destruct a as [now err|now err|i now err|nf tf rs now err| |];
    simpl in Hs; try done.
  - out_cases Hs; simpl; lia.
  - in_effect Hs. rewrite Hin.
    destruct Hts as (_ & _ & _ & _ & _ & _ & _ & _ & _ & _ & _ & Hfuel).
    unfold taskFuel in *. simpl in *. lia.
  - old_effect Hs. lia.
  - closeIn_cases Hs. simpl. lia.
  - closeOut_cases Hs. simpl. lia.
Qed.

Lemma run_inFuel_alone c sched c' tr :
  Forall (fun a => isNewIn a = false) sched →
  run c sched = Some (c', tr) →
  (countIn sched + inFuel c' ≤ inFuel c)%nat.
Proof.
  intros Hnew. revert c tr.
  induction Hnew as [|a sched Ha _ IH]; intros c tr Hrun; simpl in Hrun.
  - simplify_eq. unfold countIn. simpl. lia.
  - destruct (step c a) as [[c1 evs]|] eqn:Hs; [|done].
    destruct (run c1 sched) as [[c2 tr2]|] eqn:Hr; [|done]. simplify_eq.
    pose proof (step_inFuel_alone _ _ _ _ Ha Hs) as H1.
    pose proof (IH _ _ Hr) as H2.
    unfold countIn in *. rewrite filter_cons.
    destruct (isRunIn a); case_decide; try done; simpl; lia.
Qed.

(** X5: no reader runs for ever: along any schedule [runOut] takes at most
    three steps for each segment of its stream and one more; the
    goroutines [runIn] of a connection together take at most four steps
    for each segment of their streams and what is left of their rounds,
    where each [New] of the schedule adds the stream it attaches.  With
    no [New] in the schedule, the goroutine [runIn] of the inbound stream
    takes at most four steps for each segment of its stream and what is
    left of its round. *)
Theorem readers_take_boundedly_many_steps (c : Conn) (sched : list Action)
    (c' : Conn) (tr : list Event) :
  run c sched = Some (c', tr) →
  (countOut sched + outFuel c' ≤ outFuel c)%nat
  ∧ (countIn sched + countOld sched + inFuel c' + oldFuel c'
     ≤ inFuel c + oldFuel c + attachFuel sched)%nat
  ∧ (Forall (fun a => isNewIn a = false) sched →
     (countIn sched + inFuel c' ≤ inFuel c)%nat)
  ∧ (∀ nf tf rs, c = startConn nf tf rs →
       (countOut sched ≤ 3 * length rs + 1)%nat
       ∧ (countIn sched + countOld sched ≤ attachFuel sched)%nat).
Proof.
  intros Hrun. pose proof (run_outFuel _ _ _ _ Hrun) as Hout.
  pose proof (run_inFuel _ _ _ _ Hrun) as Hin.
  split; [done|]. split; [done|]. split.
  - intros Hnew. by eapply run_inFuel_alone.
  - intros nf tf rs ->. unfold outFuel in Hout at 2.
    unfold inFuel in Hin at 2. unfold oldFuel in Hin at 2.
    simpl in *. lia.
Qed.
Lemma run_out_alone (t : Time) (reqs : list Request) :
  ∀ c h,
    out (bds c) = Some h → out_pc c = OutRead →
    readStream h = map SegRequest reqs →
    cap (requests (bds c)) = 100%nat →
    (length (buf (requests (bds c))) + length reqs ≤ 100)%nat →
    ∃ c', run c (replicate (3 * length reqs + 1) (RunOut t None))
          = Some (c', outTrace (bidikey h) t (out_reqID c) reqs)
          ∧ out_pc c' = OutReturned
          ∧ buf (requests (bds c')) = buf (requests (bds c)) ++ reqs.
Proof.
  induction reqs as [|r reqs IH]; intros c h Hout Hpc Hrs Hcap Hlen;
    destruct c as [b opc oid ig old];
    cbn [bds out_pc out_reqID length map] in *; subst opc.
  - cbn [replicate run step Nat.mul Nat.add]. unfold stepOut; simpl.
    rewrite Hout, Hrs. simpl.
    eexists. split; [done|]. split; [done|]. by rewrite app_nil_r.
  - replace (3 * S (length reqs) + 1)%nat
      with (S (S (S (3 * length reqs + 1)))) by lia.
    cbn [replicate run step].
    unfold stepOut at 1. cbn [bds out_pc out_reqID inG replaced].
    rewrite Hout, Hrs. cbn [http.ReadRequest].
    unfold stepOut at 1.
    cbn [bds out_pc out_reqID inG replaced set_out out requests].
    unfold send. rewrite Hcap.
    assert ((length (buf (requests b)) <? 100)%nat = true) as ->
      by (apply Nat.ltb_lt; lia).
    unfold stepOut at 1.
    cbn [bds out_pc out_reqID inG replaced set_out set_requests out
         requests].
    match goal with
    | |- context [run ?c1 (replicate _ _)] =>
        edestruct (IH c1) as (c' & Hrun & Hret & Hbuf);
          [ simpl; reflexivity | done | done | done
          | simpl; rewrite length_app; simpl; lia | ]
    end.
    simpl in Hbuf. cbn [bidikey set_readStream out_reqID] in Hrun.
    rewrite Hrun.
    exists c'. split; [done|]. split; [done|].
    by rewrite Hbuf, <- app_assoc.
Qed.

(** X6: on its own, with at most 100 complete requests on its stream and then
    the end of input, [runOut] closes the body of, pushes and stores each
    request in stream order under the counter values 0, 1, 2, ..., then
    calls [CloseTCPConnection] and returns, leaving all the requests in
    the channel: it never has to wait for [runIn]. *)
Theorem runOut_alone_stores_every_request (nf tf : Flow) (t : Time)
    (reqs : list Request) :
  (length reqs ≤ 100)%nat →
  ∃ c', run (startConn nf tf (map SegRequest reqs))
            (replicate (3 * length reqs + 1) (RunOut t None))
        = Some (c', outTrace (connKey nf tf) t 0 reqs)
        ∧ out_pc c' = OutReturned
        ∧ buf (requests (bds c')) = reqs.
Proof.
  intros Hlen.
  apply (run_out_alone t reqs (startConn nf tf (map SegRequest reqs))
           (newTCPStream nf tf (map SegRequest reqs))); simpl; try done.
Qed.

Lemma step_stallInv reqs rest c tr a c' evs :
  (101 ≤ length reqs)%nat →
  stallInv reqs rest c tr → step c a = Some (c', evs) →
  stallInv reqs rest c' (tr ++ evs).
Proof.
  intros Hreqs Hinv Hs Hnone. unfold stallInv in Hinv.
  step_cases c a Hs; simpl in *; try congruence.
  all: destruct (Hinv Hnone)
         as (Hnil & h0 & n & Hh0 & Hstream & Hcap & Hlen & Hpc);
    simplify_eq.
  all: split; [done|].
  all: try (assert (Hn : (length (buf (requests b))
                          < length (map SegRequest reqs))%nat)
              by (rewrite length_map; lia);
            apply lookup_lt_is_Some in Hn as [x Hx];
            rewrite Hrs, (drop_S _ _ _ Hx) in Hstream; simpl in Hstream;
            simplify_eq; rewrite ?list_lookup_fmap in Hx).
  all: try by destruct (reqs !! length (buf (requests b))).
  all: try (apply Nat.ltb_lt in Hlt; rewrite Hcap in Hlt).
  all: eexists _, _; split_and!; try done; simpl;
    rewrite ?length_app; simpl; lia.
Qed.

(** X7: a connection whose inbound direction is never seen while its outbound
    stream starts with more than 100 requests: [runOut] pushes 100 of
    them and then waits at the channel for good.  It stores no more than
    100 requests, never returns and never calls [CloseTCPConnection]. *)
Theorem runOut_stalls_without_runIn (nf tf : Flow) (reqs : list Request)
    (rest : ReaderStream) (sched : list Action) (c : Conn)
    (tr : list Event) :
  (101 ≤ length reqs)%nat →
  run (startConn nf tf (map SegRequest reqs ++ rest)) sched = Some (c, tr) →
  in_ (bds c) = None →
  out_pc c ≠ OutReturned ∧ closes tr = []
  ∧ (length (sent tr) ≤ 100)%nat ∧ (length (pushed tr) ≤ 100)%nat.
Proof.
  intros Hreqs Hrun Hnone.
  assert (H0 : stallInv reqs rest
                 (startConn nf tf (map SegRequest reqs ++ rest)) []).
  { intros _. split; [done|]. eexists _, 0%nat. simpl.
    split_and!; try done. lia. }
  pose proof (run_invariant (stallInv reqs rest)
                (fun c tr a c' evs => step_stallInv reqs rest c tr a c' evs
                                        Hreqs)
                sched _ [] _ _ H0 Hrun Hnone)
    as (Hnil & h & n & _ & _ & _ & Hlen & Hpc).
  pose proof (outLocalInv_reachable _ _ _ _ _ _ Hrun) as (_ & Hcl & _).
  pose proof (outChan_reachable _ _ _ _ _ _ Hrun) as (Ho & Hc & Hi).
  pose proof (outInv_counts _ _ Ho) as Hs.
  apply Hi in Hnil. unfold inInv in Hnil. rewrite Hnone in Hnil.
  destruct (inG c); [done|]. destruct Hnil as [Hpop _].
  unfold chanInv in Hc. apply (f_equal length) in Hc.
  rewrite Hpop in Hc. simpl in Hc.
  destruct (out_pc c); try done; split_and!; try done; lia.
Qed.

(** X8: a response can be stored before the request it answers: the request
    is in the channel before [runOut] calls [SentRequest], so [runIn] can
    pop it, parse the response and call [ReceivedResponse] with counter
    value 0 first. *)
Theorem response_can_be_stored_before_its_request (nf tf : Flow)
    (req : Request) (rest rest' : ReaderStream) (status : Z)
    (body : option error) (t : Time) :
  ∃ c', run (startConn nf tf (SegRequest req :: rest))
            [RunOut t None; RunOut t None;
             NewIn (Reverse nf) (Reverse tf)
               (SegResponse status body :: rest') t None;
             RunIn t None; RunIn t None; RunIn t None; RunIn t None;
             RunOut t None]
        = Some (c',
                [BodyClose req; ChanSend req;
                 OpenTCPConnection (connKey nf tf) t; ChanRecv req]
                ++ logIfErr "Error discarding bytes " body
                ++ [ReceivedResponse (connKey nf tf) 0 t
                      {| StatusCode := status; Body := body;
                         Request_ := req |};
                    SentRequest (connKey nf tf) 0 t req]).
Proof.
  cbn [run step]. unfold stepOut at 1; simpl.
  unfold stepOut at 1, send; simpl.
  unfold attach; simpl. rewrite connKey_Reverse.
  rewrite decide_True by done. simpl.
  rewrite connKey_Reverse. by eexists.
Qed.

(** ** More on the registry *)

Lemma registryOK_empty : registryOK NewStreamFactory.
Proof. intros k b Hb. simpl in Hb. by rewrite lookup_empty in Hb. Qed.

Lemma registryOK_New h nf tf rs now err :
  registryOK h → registryOK (New h nf tf rs now err).1.1.
Proof.
  intros Hok k b. unfold New.
  destruct (bidiStreams h !! connKey nf tf) as [b0|] eqn:Hk; simpl;
    rewrite lookup_insert; case_decide as Heq.
  - intros [= <-]. subst k.
    destruct (Hok _ _ Hk) as (Hkey & Hout & Hin & Hcap). simpl.
    split_and!; try done. by intros hi [= <-].
  - apply Hok.
  - intros [= <-]. subst k. simpl.
    split_and!; try done. by eexists.
  - apply Hok.
Qed.

Lemma New_keeps_entries h nf tf rs now err k b :
  bidiStreams h !! k = Some b →
  ∃ b', bidiStreams (New h nf tf rs now err).1.1 !! k = Some b'
        ∧ key b' = key b ∧ out b' = out b ∧ requests b' = requests b.
Proof.
  intros Hb. unfold New.
  destruct (bidiStreams h !! connKey nf tf) as [b0|] eqn:Hk; simpl;
    rewrite lookup_insert; case_decide as Heq; subst;
    unfold uint64 in *; try congruence;
    try (assert (b0 = b) as -> by congruence);
    eexists; (split; [first [eassumption | reflexivity]|]); by split_and!.
Qed.

(** X10: whatever calls of [New] the assembler makes, the registry stays well
    formed: every entry is stored under its own key, has its outbound
    stream, carries the key in its streams and has a channel of capacity
    100.  No call removes an entry or replaces the outbound stream or the
    channel of an entry that is there. *)
Theorem New_keeps_the_registry_well_formed (h : httpStreamFactory)
    (calls : list NewCall) :
  registryOK h →
  registryOK (News h calls).1
  ∧ ∀ k b, bidiStreams h !! k = Some b →
      ∃ b', bidiStreams (News h calls).1 !! k = Some b'
            ∧ key b' = key b ∧ out b' = out b
            ∧ requests b' = requests b.
Proof.
  revert h. induction calls as [|a calls IH]; intros h Hok; simpl.
  - split; [done|]. intros k b Hb. by eexists.
  - pose proof (registryOK_New h (call_netFlow a) (call_tcpFlow a)
                  (call_bytes a) (call_now a) (call_err a) Hok) as Hok1.
    destruct (New h (call_netFlow a) (call_tcpFlow a) (call_bytes a)
                (call_now a) (call_err a)) as [[h1 evs] go] eqn:HN.
    simpl in Hok1. destruct (IH h1 Hok1) as [Hok2 Hkeep].
    destruct (News h1 calls) as [h2 tr] eqn:HNs. simpl in *.
    split; [done|]. intros k b Hb.
    destruct (New_keeps_entries h (call_netFlow a) (call_tcpFlow a)
                (call_bytes a) (call_now a) (call_err a) k b Hb)
      as (b1 & Hb1 & Hk1 & Ho1 & Hr1).
    rewrite HN in Hb1. simpl in Hb1.
    destruct (Hkeep k b1 Hb1) as (b2 & Hb2 & Hk2 & Ho2 & Hr2).
    exists b2. split_and!; congruence.
Qed.

(** X11: every call of [New] either adds a key to the registry or reports a
    connection open: over any sequence of calls, the number of
    [OpenTCPConnection] calls is the number of calls of [New] minus the
    number of keys added, and [New] makes no other storage call. *)
Theorem New_opens_whenever_the_key_is_known (h : httpStreamFactory)
    (calls : list NewCall) :
  (length (opens (News h calls).2) + size (bidiStreams (News h calls).1)
   = length calls + size (bidiStreams h))%nat
  ∧ length (filter (fun e => isStorageCall e = true) (News h calls).2)
    = length (opens (News h calls).2).
Proof.
  revert h. induction calls as [|a calls IH]; intros h; simpl.
  - split; [lia|done].
  - unfold New.
    destruct (bidiStreams h !! callKey a) as [b|] eqn:Hk;
      unfold callKey in Hk; rewrite Hk;
      match goal with
      | |- context [News ?h1 calls] =>
          destruct (IH h1) as [IH1 IH2];
          destruct (News h1 calls) as [h2 tr] eqn:HNs
      end; simpl in *.
    + rewrite map_size_insert_Some in IH1 by done.
      rewrite opens_app, opens_logIfErr. simpl.
      rewrite filter_app, filter_storage_logIfErr. simpl. lia.
    + rewrite map_size_insert_None in IH1 by done. lia.
Qed.

Lemma Reverse_eq_iff (a : Flow) : Reverse a = a ↔ src a = dst a.
Proof.
  destruct a as [ty s d]; unfold Reverse; simpl. split.
  - by intros [= -> _].
  - by intros ->.
Qed.

Lemma established_after_both h nf tf rs now err rs2 now2 err2 :
  bidiStreams h !! connKey nf tf = None →
  established
    (New (New h nf tf rs now err).1.1 (Reverse nf) (Reverse tf)
       rs2 now2 err2).1.1
    (connKey nf tf)
    (newTCPStream (Reverse nf) (Reverse tf) rs2) (newTCPStream nf tf rs).
Proof.
  intros Hk. rewrite (New_fresh _ _ _ _ _ _ Hk). simpl.
  erewrite New_known; last first.
  { simpl. rewrite connKey_Reverse. apply lookup_insert_eq. }
  simpl. rewrite connKey_Reverse, insert_insert_eq.
  eexists. split; [apply lookup_insert_eq|]. done.
Qed.

(** X12: after [New] has been called for the two directions of a connection
    in the order they were seen, [LogPacketSize] counts a packet of the
    second direction as incoming.  A packet of the first direction is
    counted as outgoing when the two addresses differ; when both ends
    have the same address the network flows of the two directions are
    equal and it is counted as incoming as well. *)
Theorem packets_are_attributed_by_address (h : httpStreamFactory)
    (nf tf : Flow) (rs rs2 : ReaderStream) (now now2 : Time)
    (err err2 err3 : option error) (ipv4 : IPv4) (tcp : TCP) :
  bidiStreams h !! connKey nf tf = None →
  let h2 := (New (New h nf tf rs now err).1.1 (Reverse nf) (Reverse tf)
               rs2 now2 err2).1.1 in
  let k := connKey nf tf in
  let n := payloadLength ipv4 tcp in
  LogPacketSize h2
    {| NetworkLayer := Some (Reverse nf); TransportLayer := Some (Reverse tf);
       LayerIPv4 := Some ipv4; LayerTCP := Some tcp |} err3
  = ([IncomingTCPPacket k n], panicIfErr err3)
  ∧ (src nf ≠ dst nf →
     LogPacketSize h2
       {| NetworkLayer := Some nf; TransportLayer := Some tf;
          LayerIPv4 := Some ipv4; LayerTCP := Some tcp |} err3
     = ([OutgoingTCPPacket k n], panicIfErr err3))
  ∧ (src nf = dst nf →
     LogPacketSize h2
       {| NetworkLayer := Some nf; TransportLayer := Some tf;
          LayerIPv4 := Some ipv4; LayerTCP := Some tcp |} err3
     = ([IncomingTCPPacket k n], panicIfErr err3)).
Proof.
  intros Hk h2 k n.
  pose proof (established_after_both h nf tf rs now err rs2 now2 err2 Hk)
    as Hest.
  fold h2 in Hest. split_and!.
  - erewrite LogPacketSize_established; try done; simpl;
      rewrite ?connKey_Reverse; try done.
    by rewrite decide_True.
  - intros Hne. erewrite LogPacketSize_established; try done. simpl.
    rewrite decide_False; [done|]. by rewrite Reverse_eq_iff.
  - intros Heq. erewrite LogPacketSize_established; try done. simpl.
    rewrite decide_True; [done|]. by rewrite Reverse_eq_iff.
Qed.

(** X13: the payload length is a 16-bit value whatever the header fields are.
    When the two header lengths together exceed the total length of the
    packet (as for a captured packet whose total length field is 0), the
    subtraction wraps: the value reported is 65536 more than the
    difference. *)
Theorem payloadLength_wraps_when_headers_exceed_length (ipv4 : IPv4)
    (tcp : TCP) :
  0 ≤ payloadLength ipv4 tcp < 2 ^ 16
  ∧ (0 ≤ Length ipv4 < 2 ^ 16 → 0 ≤ IHL ipv4 < 2 ^ 8 →
     0 ≤ DataOffset tcp < 2 ^ 8 →
     Length ipv4 < 4 * IHL ipv4 + 4 * DataOffset tcp →
     payloadLength ipv4 tcp
     = Length ipv4 - 4 * IHL ipv4 - 4 * DataOffset tcp + 2 ^ 16).
Proof.
  rewrite payloadLength_mod. split.
  - apply Z.mod_pos_bound. lia.
  - intros Hl Hi Hd Hlt.
    rewrite <- (Z_mod_plus_full _ 1 (2 ^ 16)).
    apply Z.mod_small. lia.
Qed.

Lemma lxor_uint64 (a b : Z) :
  0 ≤ a < 2 ^ 64 → 0 ≤ b < 2 ^ 64 → 0 ≤ Z.lxor a b < 2 ^ 64.
Proof.
  intros Ha Hb. split; [apply Z.lxor_nonneg; lia|].
  destruct (Z.eq_dec (Z.lxor a b) 0) as [->|Hne]; [lia|].
  apply Z.log2_lt_pow2; [pose proof (Z.lxor_nonneg a b); lia|].
  eapply Z.le_lt_trans; [apply Z.log2_lxor; lia|].
  apply Z.max_lub_lt.
  - destruct (Z.eq_dec a 0) as [->|]; [simpl; lia|].
    apply Z.log2_lt_pow2; lia.
  - destruct (Z.eq_dec b 0) as [->|]; [simpl; lia|].
    apply Z.log2_lt_pow2; lia.
Qed.

Lemma FastHash_uint64 (a : Flow) : 0 ≤ FastHash a < 2 ^ 64.
Proof. unfold FastHash, wrap64. apply Z.mod_pos_bound. lia. Qed.

(** X14: the key is a 64-bit value, and it does not tell which end of the
    connection has which address or which port: reversing only the
    transport flow, or only the network flow, gives the same key, so the
    connections A:p - B:q and A:q - B:p share one entry of the
    registry. *)
Theorem connKey_forgets_the_pairing_of_ends (nf tf : Flow) :
  0 ≤ connKey nf tf < 2 ^ 64
  ∧ connKey nf (Reverse tf) = connKey nf tf
  ∧ connKey (Reverse nf) tf = connKey nf tf.
Proof.
  unfold connKey. rewrite !FastHash_Reverse.
  split; [apply lxor_uint64; apply FastHash_uint64|done].
Qed.

(** ** The end of [main] *)

Lemma markBidiClosed_idemp v :
  markBidiClosed (markBidiClosed v) = markBidiClosed v.
Proof.
  unfold markBidiClosed; simpl. f_equal.
  - by destruct (in_ v).
  - by destruct (out v).
Qed.

Lemma LogPacketSize_markAllClosed h packet err :
  LogPacketSize (markAllClosed h) packet err = LogPacketSize h packet err.
Proof.
  unfold LogPacketSize, markAllClosed; simpl.
  destruct (NetworkLayer packet) as [nf|]; [|done].
  destruct (TransportLayer packet) as [tf|]; [|done].
  rewrite lookup_fmap.
  destruct (bidiStreams h !! connKey nf tf) as [b|]; [|done]. simpl.
  by destruct (in_ b) as [bin|], (out b) as [bout|].
Qed.

(** X15: the marking at the end of [main] sets the [closed] flag of the
    factory and of every stream the registry holds and changes nothing
    else: the keys, flows and channels stay, doing it twice is the same as
    once, and [LogPacketSize] answers as before.  On one connection with
    both streams it is what the two marking steps of the connection do,
    after which both streams are closed. *)
Theorem shutdown_marks_every_stream_closed (h : httpStreamFactory) :
  factory_closed (markAllClosed h) = true
  ∧ (∀ k b s, bidiStreams (markAllClosed h) !! k = Some b →
       in_ b = Some s ∨ out b = Some s → closed s = true)
  ∧ (∀ k, bidiStreams (markAllClosed h) !! k
          = markBidiClosed <$> bidiStreams h !! k)
  ∧ markAllClosed (markAllClosed h) = markAllClosed h
  ∧ (∀ packet err,
       LogPacketSize (markAllClosed h) packet err
       = LogPacketSize h packet err)
  ∧ (∀ c, is_Some (in_ (bds c)) → is_Some (out (bds c)) →
       ∃ c1 c2, markClosedOut c = Some (c1, [])
                ∧ markClosedIn c1 = Some (c2, [])
                ∧ bds c2 = markBidiClosed (bds c)
                ∧ bothClosed c2).
Proof.
  split; [done|]. split_and!.
  - intros k b s Hb Hs. unfold markAllClosed in Hb; simpl in Hb.
    rewrite lookup_fmap in Hb.
    destruct (bidiStreams h !! k) as [b0|]; [|done]. simpl in Hb.
    simplify_eq. unfold markBidiClosed in Hs; simpl in Hs.
    destruct Hs as [Hs|Hs].
    + destruct (in_ b0); simpl in Hs; by simplify_eq.
    + destruct (out b0); simpl in Hs; by simplify_eq.
  - intros k. unfold markAllClosed; simpl. by rewrite lookup_fmap.
  - unfold markAllClosed; simpl. f_equal.
    rewrite <- map_fmap_compose. apply map_fmap_ext.
    intros k b _. apply markBidiClosed_idemp.
  - apply LogPacketSize_markAllClosed.
  - intros c [hi Hi] [ho Ho]. eexists _, _.
    split; [unfold markClosedOut; by rewrite Ho|].
    split; [unfold markClosedIn; simpl; by rewrite Hi|]. simpl.
    unfold markBidiClosed, bothClosed. simpl. by rewrite Hi, Ho.
Qed.

(** X16: [New] does not look at the [closed] flag of the factory: after the
    marking at the end of [main] it still registers or attaches the
    stream it is called for, starts the same goroutine and makes the same
    storage call, and the stream it stores is not marked closed. *)
Theorem New_after_shutdown_still_registers (h : httpStreamFactory)
    (nf tf : Flow) (rs : ReaderStream) (now : Time) (err : option error) :
  let r := New (markAllClosed h) nf tf rs now err in
  r.1.2 = (New h nf tf rs now err).1.2
  ∧ r.2 = (New h nf tf rs now err).2
  ∧ factory_closed r.1.1 = true
  ∧ ∃ b s, bidiStreams r.1.1 !! connKey nf tf = Some b
           ∧ (in_ b = Some s ∨ out b = Some s)
           ∧ s = newTCPStream nf tf rs ∧ closed s = false.
Proof.
  unfold New, markAllClosed; simpl. rewrite lookup_fmap.
  destruct (bidiStreams h !! connKey nf tf) as [b|]; simpl.
  - split_and!; try done. rewrite lookup_insert_eq.
    eexists _, _. split; [done|]. split; [by left|]. done.
  - split_and!; try done. rewrite lookup_insert_eq.
    eexists _, _. split; [done|]. split; [by right|]. done.
Qed.

Lemma run_in_alone (t : Time) (pairs : list (Request * (Z * option error)))
    (more : list Request) :
  ∀ c h id,
    in_ (bds c) = Some h →
    inG c = Some {| in_pc := InPeek; in_reqID := id |} →
    reqInProgress h = None →
    readStream h = map (fun p => SegResponse p.2.1 p.2.2) pairs →
    buf (requests (bds c)) = map fst pairs ++ more →
    ∃ c', run c (replicate (4 * length pairs + 1) (RunIn t None))
          = Some (c', inTrace (bidikey h) t id pairs)
          ∧ (in_pc <$> inG c') = Some InReturned
          ∧ buf (requests (bds c')) = more
          ∧ out_pc c' = out_pc c.
Proof.
  induction pairs as [|[r [st bd]] pairs IH];
    intros c h id Hin Hg Hprog Hrs Hbuf;
    destruct c as [b opc oid ig old];
    cbn [bds inG length map fst app] in *; subst ig.
  - cbn [replicate run step Nat.mul Nat.add]. unfold stepIn; simpl.
    rewrite Hin, Hrs. simpl. by eexists.
  - replace (4 * S (length pairs) + 1)%nat
      with (S (S (S (S (4 * length pairs + 1))))) by lia.
    cbn [replicate run step].
    unfold stepIn at 1. cbn [bds inG in_pc in_reqID replaced].
    rewrite Hin, Hrs, Hprog. cbn [bufio.PeekEOF].
    unfold stepIn at 1. cbn [bds inG in_pc in_reqID replaced].
    rewrite Hin. unfold recv. rewrite Hbuf.
    unfold stepIn at 1.
    cbn [bds inG in_pc in_reqID replaced set_in set_requests in_
         readStream set_reqInProgress].
    rewrite Hrs. cbn [http.ReadResponse snd fst].
    unfold stepIn at 1.
    cbn [bds inG in_pc in_reqID replaced set_in set_requests in_
         readStream set_reqInProgress set_readStream].
    match goal with
    | |- context [run ?c1 (replicate _ _)] =>
        edestruct (IH c1) as (c' & Hrun & Hret & Hbuf' & Hpc);
          try (simpl; reflexivity); try done
    end.
    cbn [bidikey set_reqInProgress set_readStream] in Hrun.
    cbn [bidikey set_reqInProgress set_readStream].
    rewrite Hrun. simpl in Hbuf', Hpc.
    exists c'. by split_and!.
Qed.

(** X9: on its own, with as many complete responses on its stream as there
    are requests waiting in the channel, [runIn] pops the requests in
    order, parses one response against each, stores it with
    [ReceivedResponse] under the counter values 0, 1, 2, ..., and returns
    at the end of input with the requests it did not need still in the
    channel.  Together with [runOut] on its own this is the run of a
    pipelined connection whose requests all come before its responses. *)
Theorem runIn_alone_answers_requests_in_order (c : Conn) (h : TCPStream)
    (t : Time) (pairs : list (Request * (Z * option error)))
    (more : list Request) :
  in_ (bds c) = Some h → inG c = Some {| in_pc := InPeek; in_reqID := 0 |} →
  reqInProgress h = None →
  readStream h = map (fun p => SegResponse p.2.1 p.2.2) pairs →
  buf (requests (bds c)) = map fst pairs ++ more →
  ∃ c', run c (replicate (4 * length pairs + 1) (RunIn t None))
        = Some (c', inTrace (bidikey h) t 0 pairs)
        ∧ (in_pc <$> inG c') = Some InReturned
        ∧ buf (requests (bds c')) = more.
Proof.
  intros Hin Hg Hprog Hrs Hbuf.
  destruct (run_in_alone t pairs more c h 0 Hin Hg Hprog Hrs Hbuf)
    as (c' & Hrun & Hret & Hb & _).
  by exists c'.
Qed.

(** X17: a further [New] for the key of a connection goes the same way
    whatever state the connection is in, also after the end of [main]: it
    reports the connection open once more, makes the new stream the
    inbound stream with the [closed] flag unset, and starts a goroutine
    [runIn] at the head of its loop with its counter at zero, next to the
    goroutines that run already; the outbound stream and the channel stay
    as they are.  So when the new stream starts with bytes that are no
    response, that goroutine pops the next request and the error is
    logged, whatever flags were set before. *)
Theorem further_New_starts_afresh (c : Conn) (nf tf : Flow)
    (rs : ReaderStream) (t : Time) (err : option error) :
  connKey nf tf = key (bds c) →
  ∃ c',
    step c (NewIn nf tf rs t err)
    = Some (c', OpenTCPConnection (key (bds c)) t
                :: logIfErr "Error storing connection" err)
    ∧ in_ (bds c') = Some (newTCPStream nf tf rs)
    ∧ inG c' = Some {| in_pc := InPeek; in_reqID := 0 |}
    ∧ closed <$> in_ (bds c') = Some false
    ∧ tasks c'
      = tasks c ++ [{| task_stream := newTCPStream nf tf rs;
                       task_locals := {| in_pc := InPeek; in_reqID := 0 |} |}]
    ∧ out (bds c') = out (bds c)
    ∧ requests (bds c') = requests (bds c)
    ∧ (out_pc c', out_reqID c') = (out_pc c, out_reqID c)
    ∧ ∀ e rest req more,
        rs = SegMalformed e :: rest →
        buf (requests (bds c)) = req :: more →
        ∃ c'', run c' [RunIn t None; RunIn t None; RunIn t None; RunIn t None]
               = Some (c'', [ChanRecv req; Println "Error reading stream" e]).
Proof.
  intros Hkey. destruct c as [b opc oid ig old]. simpl in *.
  unfold attach. cbn [bds key]. rewrite decide_True by done.
  rewrite Hkey. eexists. split; [reflexivity|]. simpl.
  split_and!; try done.
  intros e rest req more -> Hbuf.
  unfold stepIn, recv. simpl. rewrite Hbuf. simpl. by eexists.
Qed.

(** ** The properties above on the example connection *)

Lemma exBothClosed_run :
  run exBothClosed [RunIn 7 None; RunIn 8 None; RunIn 9 None]
  = Some (exBothClosedEnd, []).
Proof. vm_compute. reflexivity. Qed.

Lemma exBadIn_run :
  run exBadIn [RunIn 7 None; RunIn 8 None]
  = Some (exBadInNext, [Println "Error reading stream"
                                 "malformed HTTP response"]).
Proof. vm_compute. reflexivity. Qed.

Lemma storage_calls_carry_the_key_witness :
  Forall (fun k => k = exKey) (keys exTrace) ∧ key (bds exEnd) = exKey.
Proof.
  exact (storage_calls_carry_the_key exNet exTcp _ exSchedule exEnd exTrace
           exRun).
Defined.

Lemma exReplaced_run :
  run exStart exReplaceSchedule = Some (exReplaced, exReplacedTrace).
Proof. vm_compute. reflexivity. Qed.

Lemma readers_stay_in_step_witness :
  (length (received exTrace) ≤ length (sent exTrace) + 1)%nat
  ∧ (length (pushed exFullTrace) ≤ length (popped exFullTrace) + 100)%nat
  ∧ (length (popped exReplacedTrace)
     ≤ length (received exReplacedTrace) + 2)%nat.
Proof.
  destruct (readers_stay_in_step exNet exTcp _ exSchedule exEnd exTrace exRun)
    as (_ & _ & _ & Hr & _).
  destruct (readers_stay_in_step exNet exTcp _ exFullSchedule exFull
              exFullTrace exFullRun) as (_ & _ & [_ Hp] & _).
  destruct (readers_stay_in_step exNet exTcp _ exReplaceSchedule exReplaced
              exReplacedTrace exReplaced_run) as (_ & [_ Hq] & _).
  split; [exact Hr|]. split; [exact Hp|exact Hq].
Defined.

Lemma no_response_before_open_witness :
  popped exPartialTrace = [] ∧ received exPartialTrace = []
  ∧ (opens exTrace = [] ∨ ∃ t, opens exTrace = [(connKey exNet exTcp, t)])
  ∧ length (opens exReplacedTrace) = 2%nat.
Proof.
  destruct (no_response_before_open exNet exTcp _ exPartialSchedule exPartial
              exPartialTrace exPartialRun) as [Hnone _].
  destruct (no_response_before_open exNet exTcp _ exSchedule exEnd exTrace
              exRun) as (_ & _ & _ & _ & Hone).
  destruct (no_response_before_open exNet exTcp _ exReplaceSchedule
              exReplaced exReplacedTrace exReplaced_run)
    as (_ & _ & Htwo & _).
  destruct (Hnone eq_refl) as [Hp Hr].
  split; [exact Hp|]. split; [exact Hr|]. split; [exact (Hone eq_refl)|].
  exact Htwo.
Defined.

Lemma no_read_error_logged_after_shutdown_witness :
  readErrors [] = [] ∧ bothClosed exBothClosedEnd
  ∧ oldClosed exBothClosedEnd.
Proof.
  apply (no_read_error_logged_after_shutdown exBothClosed
           [RunIn 7 None; RunIn 8 None; RunIn 9 None] exBothClosedEnd []).
  - split; reflexivity.
  - apply Forall_nil_2.
  - repeat constructor.
  - exact exBothClosed_run.
Defined.

Lemma readers_take_boundedly_many_steps_witness :
  (countOut exSchedule ≤ 3 * 2 + 1)%nat
  ∧ (countIn exSchedule + countOld exSchedule ≤ attachFuel exSchedule)%nat
  ∧ (countIn [RunIn 7%Z None; RunIn 8%Z None] + inFuel exBadInNext
     ≤ inFuel exBadIn)%nat.
Proof.
  destruct (readers_take_boundedly_many_steps exStart exSchedule exEnd exTrace
              exRun) as (_ & _ & _ & Hstart).
  destruct (readers_take_boundedly_many_steps exBadIn
              [RunIn 7 None; RunIn 8 None] exBadInNext _ exBadIn_run)
    as (_ & _ & Hin & _).
  destruct (Hstart exNet exTcp [SegRequest GETa; SegRequest GETb] eq_refl)
    as [Ho Hi].
  split; [exact Ho|]. split; [exact Hi|].
  apply Hin. repeat constructor.
Defined.

Lemma runOut_alone_stores_every_request_witness :
  ∃ c', run exStart (replicate 7 (RunOut 1 None))
        = Some (c', [BodyClose GETa; ChanSend GETa; SentRequest exKey 0 1 GETa;
                     BodyClose GETb; ChanSend GETb; SentRequest exKey 1 1 GETb;
                     CloseTCPConnection exKey 1])
        ∧ out_pc c' = OutReturned
        ∧ buf (requests (bds c')) = [GETa; GETb].
Proof.
  apply (runOut_alone_stores_every_request exNet exTcp 1 [GETa; GETb]).
  simpl. lia.
Defined.

Lemma runOut_stalls_without_runIn_witness :
  out_pc exFull ≠ OutReturned ∧ closes exFullTrace = []
  ∧ (length (sent exFullTrace) ≤ 100)%nat
  ∧ (length (pushed exFullTrace) ≤ 100)%nat.
Proof.
  apply (runOut_stalls_without_runIn exNet exTcp (replicate 101 GETa) []
           exFullSchedule exFull exFullTrace).
  - rewrite length_replicate. lia.
  - exact exFullRun.
  - reflexivity.
Defined.

Lemma exHalfOpen_ok : registryOK exHalfOpen.
Proof. apply registryOK_New, registryOK_empty. Qed.

Lemma New_keeps_the_registry_well_formed_witness :
  registryOK (News exHalfOpen exCalls).1
  ∧ ∃ b', bidiStreams (News exHalfOpen exCalls).1 !! exKey = Some b'
          ∧ out b' = Some (newTCPStream exNet exTcp []).
Proof.
  destruct (New_keeps_the_registry_well_formed exHalfOpen exCalls
              exHalfOpen_ok) as [Hok Hkeep].
  split; [exact Hok|].
  destruct (Hkeep exKey
              {| key := exKey; in_ := None;
                 out := Some (newTCPStream exNet exTcp []);
                 requests := make_chan 100 |} eq_refl)
    as (b' & Hb & _ & Hout & _).
  exists b'. split; [exact Hb|exact Hout].
Defined.

Lemma packets_are_attributed_by_address_witness :
  LogPacketSize exFactory
    {| NetworkLayer := Some exNet; TransportLayer := Some exTcp;
       LayerIPv4 := Some {| Length := 60; IHL := 5 |};
       LayerTCP := Some {| DataOffset := 5 |} |} None
  = ([OutgoingTCPPacket exKey 20], Returned)
  ∧ LogPacketSize
      (New (New NewStreamFactory exLoopNet exTcp [] 0 None).1.1
         (Reverse exLoopNet) (Reverse exTcp) [] 1 None).1.1
      {| NetworkLayer := Some exLoopNet; TransportLayer := Some exTcp;
         LayerIPv4 := Some {| Length := 60; IHL := 5 |};
         LayerTCP := Some {| DataOffset := 5 |} |} None
    = ([IncomingTCPPacket (connKey exLoopNet exTcp) 20], Returned).
Proof.
  destruct (packets_are_attributed_by_address NewStreamFactory exNet exTcp
              [] [] 0 1 None None None {| Length := 60; IHL := 5 |}
              {| DataOffset := 5 |} eq_refl) as (_ & Hout & _).
  destruct (packets_are_attributed_by_address NewStreamFactory exLoopNet exTcp
              [] [] 0 1 None None None {| Length := 60; IHL := 5 |}
              {| DataOffset := 5 |} eq_refl) as (_ & _ & Hloop).
  split.
  - apply Hout. discriminate.
  - apply Hloop. reflexivity.
Defined.

Lemma payloadLength_wraps_when_headers_exceed_length_witness :
  payloadLength exZeroLength {| DataOffset := 5 |} = 65496.
Proof.
  destruct (payloadLength_wraps_when_headers_exceed_length exZeroLength
              {| DataOffset := 5 |}) as [_ Hwrap].
  apply Hwrap; simpl; lia.
Defined.

Lemma shutdown_marks_every_stream_closed_witness :
  closed (set_closed exInStream true) = true
  ∧ ∃ c1 c2, markClosedOut exBadIn = Some (c1, [])
             ∧ markClosedIn c1 = Some (c2, [])
             ∧ bothClosed c2.
Proof.
  destruct (shutdown_marks_every_stream_closed exFactory)
    as (_ & Hall & _ & _ & _ & Hconn).
  split.
  - apply (Hall exKey
             {| key := exKey; in_ := Some (set_closed exInStream true);
                out := Some (set_closed (newTCPStream exNet exTcp []) true);
                requests := make_chan 100 |}).
    + vm_compute. reflexivity.
    + by left.
  - destruct (Hconn exBadIn) as (c1 & c2 & H1 & H2 & _ & H3);
      [by eexists | by eexists |].
    exists c1, c2. by split_and!.
Defined.

Lemma runIn_alone_answers_requests_in_order_witness :
  ∃ c', run exPipelined (replicate 9 (RunIn 3 None))
        = Some (c', [ChanRecv GETa;
                     ReceivedResponse exKey 0 3
                       {| StatusCode := 200; Body := None; Request_ := GETa |};
                     ChanRecv GETb;
                     ReceivedResponse exKey 1 3
                       {| StatusCode := 404; Body := None; Request_ := GETb |}])
        ∧ (in_pc <$> inG c') = Some InReturned
        ∧ buf (requests (bds c')) = [].
Proof.
  apply (runIn_alone_answers_requests_in_order exPipelined
           (newTCPStream (Reverse exNet) (Reverse exTcp)
              [SegResponse 200 None; SegResponse 404 None])
           3 [(GETa, (200, None)); (GETb, (404, None))] []);
    reflexivity.
Defined.

Lemma further_New_starts_afresh_witness :
  ∃ c', step exBothClosed
          (NewIn (Reverse exNet) (Reverse exTcp)
             [SegMalformed "bad"] 9 None)
        = Some (c', [OpenTCPConnection exKey 9])
        ∧ closed <$> in_ (bds c') = Some false
        ∧ length (tasks c') = 2%nat.
Proof.
  destruct (further_New_starts_afresh exBothClosed (Reverse exNet)
              (Reverse exTcp) [SegMalformed "bad"] 9 None eq_refl)
    as (c' & Hs & _ & _ & Hcl & Ht & _).
  exists c'. split; [exact Hs|]. split; [exact Hcl|].
  rewrite Ht. reflexivity.
Defined.
